(** * TranslatePlus client: request executor and its thin wrappers

    A shallow embedding of [src/client.ts] (class [TranslatePlusClient]):
    the constructor, the retrying executor [makeRequest], the wrappers
    [translate], [translateBatch], [downloadI18nFile] and
    [translateConcurrent], and the cooperative interleaving of several calls
    on one client instance.

    Conventions.
    - JavaScript numbers that the code manipulates are integers well inside
      the exactly representable range; they are modelled as [Z], with [NaN]
      kept apart ([JSNumber]) because [parseInt] produces it.  Where a
      statement depends on a number being read or printed exactly, it says
      so: the number is a safe integer (at most [2^53] in absolute value).
    - A string holds one character code below 256 per [ascii], which is how
      the values of HTTP headers reach the code.
    - A promise that has settled is a [Settled] value; [await] on a rejected
      promise is a [Throw] completion.
    - The network is an oracle: the outcome of each [fetch] is an input.
    - Request headers, multipart encoding and query strings do not influence
      the control flow of the executor; the executor's trace shows method,
      URL and JSON body, and the module [Wire] adds the rest. *)

From Stdlib Require Import ZArith String Ascii DecimalString DecimalPos Lia.
From stdpp Require Import base list strings relations.

Set Warnings "-register-all".

Local Open Scope string_scope.
Local Open Scope Z_scope.
Local Open Scope list_scope.

(** ** JavaScript values *)

Module JS.

(** A number as the code sees it: an integer, or [NaN]. *)
Inductive JSNumber :=
| NaN
| Num (z : Z).

(** [a * b], [Math.min(a, b)]: [NaN] is contagious. *)
Definition mul (a b : JSNumber) : JSNumber :=
  match a, b with
  | Num x, Num y => Num (x * y)
  | _, _ => NaN
  end.

Definition Math_min (a b : JSNumber) : JSNumber :=
  match a, b with
  | Num x, Num y => Num (Z.min x y)
  | _, _ => NaN
  end.

(** [Math.pow(2, attempt)] for a loop counter [attempt]. *)
Definition Math_pow2 (attempt : nat) : JSNumber := Num (2 ^ Z.of_nat attempt).

(** Decimal rendering of an integer, as template literals and [String(n)]
    do for a safe integer; JavaScript prints other numbers with the
    shortest digits that read back, and from [1e21] on with an exponent. *)
Definition string_of_Z (z : Z) : string := NilZero.string_of_int (Z.to_int z).

(** A decoded JSON document. *)
Inductive JSON :=
| JNull
| JBool (b : bool)
| JNum (n : Z)
| JStr (s : string)
| JArr (items : list JSON)
| JObj (fields : list (string * JSON)).

(** Truthiness, as used by [||] and [!]. *)
Definition truthy (v : JSON) : bool :=
  match v with
  | JNull => false
  | JBool b => b
  | JNum n => negb (n =? 0)%Z
  | JStr s => negb (String.eqb s "")
  | JArr _ | JObj _ => true
  end.

Fixpoint join_comma (l : list string) : string :=
  match l with
  | [] => ""
  | [s] => s
  | s :: rest => s +:+ "," +:+ join_comma rest
  end.

(** [String(v)], the coercion applied to an [Error] message. *)
Fixpoint to_String (v : JSON) : string :=
  match v with
  | JNull => "null"
  | JBool true => "true"
  | JBool false => "false"
  | JNum n => string_of_Z n
  | JStr s => s
  | JArr items =>
      join_comma (map (fun x => match x with JNull => "" | _ => to_String x end) items)
  | JObj _ => "[object Object]"
  end.

(** Field lookup; the keys of a decoded object are distinct. *)
Fixpoint assoc (k : string) (fields : list (string * JSON)) : option JSON :=
  match fields with
  | [] => None
  | (k', v) :: rest => if String.eqb k k' then Some v else assoc k rest
  end.

(** The result of reading a property [v.k]. *)
Inductive Access :=
| AccessThrows               (* TypeError: cannot read properties of null *)
| AccessUndefined
| AccessValue (v : JSON).

Definition get_prop (v : JSON) (k : string) : Access :=
  match v with
  | JNull => AccessThrows
  | JObj fields =>
      match assoc k fields with
      | Some x => AccessValue x
      | None => AccessUndefined
      end
  | _ => AccessUndefined
  end.

(** *** [parseInt(s, 10)] *)

(** The white space and line terminators of JavaScript among the character
    codes below 256: TAB, LF, VT, FF, CR, SP and the no-break space
    U+00A0. *)
Definition is_space (c : ascii) : bool :=
  let n := nat_of_ascii c in
  ((9 <=? n) && (n <=? 13))%nat || (n =? 32)%nat || (n =? 160)%nat.

Definition digit_of (c : ascii) : option Z :=
  let n := nat_of_ascii c in
  if ((48 <=? n) && (n <=? 57))%nat then Some (Z.of_nat n - 48) else None.

Fixpoint skip_space (s : string) : string :=
  match s with
  | String c rest => if is_space c then skip_space rest else s
  | EmptyString => s
  end.

(** Longest prefix of decimal digits; [None] when there is none. *)
Fixpoint digits (s : string) (acc : option Z) : option Z :=
  match s with
  | String c rest =>
      match digit_of c with
      | Some d => digits rest (Some (10 * default 0 acc + d))
      | None => acc
      end
  | EmptyString => acc
  end.

(** The integer read is exact; JavaScript rounds it to a double, which
    changes nothing for a safe integer. *)
Definition parseInt (s : string) : JSNumber :=
  let s1 := skip_space s in
  let '(negative, s2) :=
    match s1 with
    | String "-" rest => (true, rest)
    | String "+" rest => (false, rest)
    | _ => (false, s1)
    end in
  match digits s2 None with
  | Some n => Num (if negative then - n else n)
  | None => NaN
  end.

(** [s.replace(/\/$/, '')] and [s.replace(/^\//, '')]. *)
Fixpoint strip_trailing_slash (s : string) : string :=
  match s with
  | EmptyString => EmptyString
  | String c EmptyString => if Ascii.eqb c "/" then EmptyString else s
  | String c rest => String c (strip_trailing_slash rest)
  end.

Definition strip_leading_slash (s : string) : string :=
  match s with
  | String "/" rest => rest
  | _ => s
  end.

End JS.
Export JS.

(** ** Errors *)

Module Errors.

(** The error classes of the exceptions module (its text follows the type
    declarations in [src/src/types.ts], lines 125-180):
    [TranslatePlusError] extends [Error]; [TranslatePlusAPIError] and
    [TranslatePlusValidationError] extend [TranslatePlusError]; the
    authentication, rate-limit and insufficient-credits errors extend
    [TranslatePlusAPIError].  Each sets [name] to the name of its class.
    [AbortError], [TypeError] and [OtherError] stand for the errors of the
    runtime and of the transport. *)
Inductive ErrorClass :=
| TranslatePlusError
| TranslatePlusAPIError
| TranslatePlusAuthenticationError
| TranslatePlusRateLimitError
| TranslatePlusInsufficientCreditsError
| TranslatePlusValidationError
| AbortError
| TypeError
| OtherError.

(** An error object: the [message] of [Error], and the optional fields
    [statusCode] and [response] that [TranslatePlusAPIError] declares
    (types.ts lines 138-147); they stay [undefined] for the other classes
    and when the constructor gets the message alone. *)
Record JSError := mkError {
  cls : ErrorClass;
  message : string;
  statusCode : option Z;
  response : option JSON
}.

(** [e instanceof C] along the [extends] chain above (every constructor
    restores the prototype with [Object.setPrototypeOf]). *)
Definition instanceOf (e : JSError) (C : ErrorClass) : bool :=
  match cls e, C with
  | TranslatePlusError, TranslatePlusError => true
  | TranslatePlusAPIError, (TranslatePlusError | TranslatePlusAPIError) => true
  | TranslatePlusAuthenticationError,
    (TranslatePlusError | TranslatePlusAPIError | TranslatePlusAuthenticationError) => true
  | TranslatePlusRateLimitError,
    (TranslatePlusError | TranslatePlusAPIError | TranslatePlusRateLimitError) => true
  | TranslatePlusInsufficientCreditsError,
    (TranslatePlusError | TranslatePlusAPIError | TranslatePlusInsufficientCreditsError) => true
  | TranslatePlusValidationError, (TranslatePlusError | TranslatePlusValidationError) => true
  | AbortError, AbortError => true
  | TypeError, TypeError => true
  | OtherError, OtherError => true
  | _, _ => false
  end.

(** [new C(message)] and [new C(message, status, payload)]. *)
Definition new_error (C : ErrorClass) (msg : string) : JSError :=
  mkError C msg None None.

Definition new_api_error (C : ErrorClass) (msg : string) (status : Z) (payload : JSON) : JSError :=
  mkError C msg (Some status) (Some payload).

(** The error of reading a property of [null]. *)
Definition null_property_error (k : string) : JSError :=
  new_error TypeError ("Cannot read properties of null (reading '" +:+ k +:+ "')").

End Errors.
Export Errors.

(** A promise that has settled. *)
Inductive Settled (A : Type) :=
| Fulfilled (v : A)
| Rejected (e : JSError).
Arguments Fulfilled {A} v.
Arguments Rejected {A} e.

(** ** The network *)

Module Net.

(** [response.json()]: the decoded body, or a rejection. *)
Inductive JsonResult :=
| JsonOk (v : JSON)
| JsonFail (msg : string).

(** What the code reads of a response. *)
Record FetchResponse := mkResponse {
  status : Z;
  header_Retry_After : option string;     (* response.headers.get('Retry-After') *)
  json : JsonResult;                      (* response.json() *)
  arrayBuffer : string                    (* response.arrayBuffer() *)
}.

(** How one [fetch] settles: a response, an abort by the timeout
    controller, or a transport failure. *)
Inductive FetchOutcome :=
| Resolved (r : FetchResponse)
| Aborted
| Failed (msg : string).

Record Request := mkRequest {
  method : string;
  url : string;
  body : option JSON
}.

(** What a call does that the outside can observe: network calls and
    timer waits, [await new Promise(resolve => setTimeout(resolve, ms))]. *)
Inductive Event :=
| Fetch (req : Request)
| Sleep (ms : JSNumber).

Definition is_fetch (e : Event) : bool :=
  match e with Fetch _ => true | Sleep _ => false end.

Definition is_sleep (e : Event) : bool :=
  match e with Sleep _ => true | Fetch _ => false end.

Fixpoint count_if {A : Type} (p : A -> bool) (l : list A) : nat :=
  match l with
  | [] => 0%nat
  | x :: rest => ((if p x then 1 else 0) + count_if p rest)%nat
  end.

(** Number of network calls in a trace. *)
Definition network_calls (tr : list Event) : nat := count_if is_fetch tr.

Definition sleeps (tr : list Event) : list JSNumber :=
  omap (fun e => match e with Sleep ms => Some ms | Fetch _ => None end) tr.

End Net.
Export Net.

(** ** The client *)

Record ClientOptions := mkOptions {
  opt_apiKey : string;
  opt_baseUrl : option string;
  opt_timeout : option JSNumber;
  opt_maxRetries : option JSNumber;
  opt_maxConcurrent : option JSNumber
}.

(** The configuration fields of [TranslatePlusClient]; the mutable field
    [activeRequests] is threaded separately. *)
Record TranslatePlusClient := mkClient {
  apiKey : string;
  baseUrl : string;
  timeout : Z;
  maxRetries : Z;
  maxConcurrent : Z
}.

(** [options.x || d] for an optional string and an optional number. *)
Definition string_or (o : option string) (d : string) : string :=
  match o with
  | Some s => if String.eqb s "" then d else s
  | None => d
  end.

Definition number_or (o : option JSNumber) (d : Z) : Z :=
  match o with
  | Some (Num z) => if z =? 0 then d else z
  | Some NaN | None => d
  end.

Definition constructor (options : ClientOptions) : JSError + TranslatePlusClient :=
  if String.eqb (opt_apiKey options) "" then
    inl (new_error TranslatePlusValidationError "API key is required")
  else
    inr {| apiKey := opt_apiKey options;
           baseUrl := strip_trailing_slash
                        (string_or (opt_baseUrl options) "https://api.translateplus.io");
           timeout := number_or (opt_timeout options) 30000;
           maxRetries := number_or (opt_maxRetries options) 3;
           maxConcurrent := number_or (opt_maxConcurrent options) 5 |}.

(** ** The request executor: [makeRequest] *)

Module Executor.

(** How a block of statements completes. *)
Inductive Completion :=
| Normal                    (* runs off its end *)
| Continue                  (* [continue]: next loop iteration *)
| Return (v : JSON)
| Throw (e : JSError).

Section WithClient.

Variable this : TranslatePlusClient.

(** [await response.json().catch(() => ({}))] *)
Definition json_or_empty (r : FetchResponse) : JSON :=
  match json r with
  | JsonOk v => v
  | JsonFail _ => JObj []
  end.

(** [errorData.detail || `API error: ${response.status}`], then coerced to
    the message of the error built from it.  Reading [detail] of a decoded
    [null] throws. *)
Definition detail_or_status (errorData : JSON) (st : Z) : JSError + string :=
  match get_prop errorData "detail" with
  | AccessThrows => inl (null_property_error "detail")
  | AccessUndefined => inr ("API error: " +:+ string_of_Z st)
  | AccessValue v => inr (if truthy v then to_String v else "API error: " +:+ string_of_Z st)
  end.

(** Lines 165-166: the delay computed for a 429 response. *)
Definition rate_limit_delay (r : FetchResponse) (attempt : nat) : JSNumber :=
  let retryAfter := parseInt (string_or (header_Retry_After r) "2") in
  Math_min (mul retryAfter (Num 1000)) (mul (Math_pow2 attempt) (Num 1000)).

(** [Math.pow(2, attempt) * 1000] *)
Definition backoff_delay (attempt : nat) : JSNumber :=
  mul (Math_pow2 attempt) (Num 1000).

(** Lines 153-207: the inner [try] block, from the settled [fetch] on. *)
Definition try_fetch (attempt : nat) (o : FetchOutcome) : list Event * Completion :=
  match o with
  | Aborted => ([], Throw (new_error AbortError "The user aborted a request."))
  | Failed msg => ([], Throw (new_error OtherError msg))
  | Resolved r =>
      if status r =? 429 then
        let delay := rate_limit_delay r attempt in
        if Z.of_nat attempt <? maxRetries this then ([Sleep delay], Continue)
        else
          let errorData := json_or_empty r in
          ([], Throw (new_api_error TranslatePlusRateLimitError
                        "Rate limit exceeded. Please try again later."
                        (status r) errorData))
      else if 400 <=? status r then
        let errorData := json_or_empty r in
        match detail_or_status errorData (status r) with
        | inl e => ([], Throw e)
        | inr errorMessage =>
            if (status r =? 401) || (status r =? 403) then
              ([], Throw (new_api_error TranslatePlusAuthenticationError
                            errorMessage (status r) errorData))
            else if status r =? 402 then
              ([], Throw (new_api_error TranslatePlusInsufficientCreditsError
                            errorMessage (status r) errorData))
            else if status r =? 429 then
              ([], Throw (new_api_error TranslatePlusRateLimitError
                            errorMessage (status r) errorData))
            else
              ([], Throw (new_api_error TranslatePlusAPIError
                            errorMessage (status r) errorData))
        end
      else
        match json r with
        | JsonOk v => ([], Return v)
        | JsonFail msg => ([], Throw (new_error OtherError msg))
        end
  end.

(** Lines 208-228: [catch (fetchError)].  The third component is
    [lastError] after the block. *)
Definition catch_fetchError (attempt : nat) (lastError : option JSError)
    (fetchError : JSError) : list Event * Completion * option JSError :=
  if instanceOf fetchError AbortError then
    ([], Throw (new_error TranslatePlusAPIError
                  ("Request timeout after " +:+ string_of_Z (timeout this) +:+ "ms")),
     lastError)
  else if instanceOf fetchError TranslatePlusAuthenticationError
          || instanceOf fetchError TranslatePlusInsufficientCreditsError then
    ([], Throw fetchError, lastError)
  else if Z.of_nat attempt <? maxRetries this then
    ([Sleep (backoff_delay attempt)], Continue, Some fetchError)
  else
    ([], Normal, Some fetchError).

(** Lines 229-243: the outer [catch (error)]. *)
Definition catch_error (attempt : nat) (lastError : option JSError)
    (error : JSError) : list Event * Completion * option JSError :=
  if instanceOf error TranslatePlusAuthenticationError
     || instanceOf error TranslatePlusInsufficientCreditsError then
    ([], Throw error, lastError)
  else if Z.of_nat attempt <? maxRetries this then
    ([Sleep (backoff_delay attempt)], Continue, Some error)
  else
    ([], Normal, Some error).

(** Lines 148-243: one iteration of the retry loop, after its [fetch] has
    settled with [o]. *)
Definition attempt_body (attempt : nat) (lastError : option JSError)
    (o : FetchOutcome) : list Event * Completion * option JSError :=
  match try_fetch attempt o with
  | (ev, Throw fetchError) =>
      match catch_fetchError attempt lastError fetchError with
      | (ev1, Throw error, lastError1) =>
          let '(ev2, c, lastError2) := catch_error attempt lastError1 error in
          (ev ++ ev1 ++ ev2, c, lastError2)
      | (ev1, c, lastError1) => (ev ++ ev1, c, lastError1)
      end
  | (ev, c) => (ev, c, lastError)
  end.

(** [lastError?.message || 'Unknown error'] *)
Definition last_message (lastError : option JSError) : string :=
  match lastError with
  | Some e => if String.eqb (message e) "" then "Unknown error" else message e
  | None => "Unknown error"
  end.

(** Lines 247-249: the error thrown after the loop. *)
Definition retries_failed (lastError : option JSError) : JSError :=
  new_error TranslatePlusAPIError
    ("Request failed after " +:+ string_of_Z (maxRetries this) +:+ " retries: "
       +:+ last_message lastError).

(** Lines 146-249: [for (let attempt = 0; attempt <= this.maxRetries;
    attempt++)] over the attempt numbers still to run, then the final
    [throw].  [net attempt] is how the [fetch] of that attempt settles. *)
Fixpoint retry_loop (req : Request) (net : nat -> FetchOutcome) (attempts : list nat)
    (lastError : option JSError) : list Event * Settled JSON :=
  match attempts with
  | [] => ([], Rejected (retries_failed lastError))
  | attempt :: rest =>
      let '(ev, c, lastError') := attempt_body attempt lastError (net attempt) in
      match c with
      | Return v => (Fetch req :: ev, Fulfilled v)
      | Throw e => (Fetch req :: ev, Rejected e)
      | Continue | Normal =>
          let '(ev', r) := retry_loop req net rest lastError' in
          (Fetch req :: ev ++ ev', r)
      end
  end.

(** The attempt numbers [0 .. maxRetries]. *)
Definition attempts : list nat := seq 0 (Z.to_nat (maxRetries this + 1)).

(** Lines 90 and 130-132: the request of a call without files or query
    parameters. *)
Definition build_request (method endpoint : string) (data : option JSON) : Request :=
  {| method := method;
     url := baseUrl this +:+ "/" +:+ strip_leading_slash endpoint;
     body := match data with
             | Some d => if truthy d then Some d else None
             | None => None
             end |}.

(** Lines 99-249: the [try] block of [makeRequest], entered once the call
    has been admitted. *)
Definition makeRequest_body (net : nat -> FetchOutcome) (method endpoint : string)
    (data : option JSON) : list Event * Settled JSON :=
  retry_loop (build_request method endpoint data) net attempts None.

(** [makeRequest] run on its own from [activeRequests]: admission, the
    body, and the [finally] block.  [None] when the call is not admitted:
    it then polls every 10 ms until another call leaves, which the module
    [Concurrent] describes. *)
Definition makeRequest (activeRequests : Z) (net : nat -> FetchOutcome)
    (method endpoint : string) (data : option JSON)
    : option (list Event * Settled JSON * Z) :=
  if maxConcurrent this <=? activeRequests then None
  else
    let activeRequests1 := activeRequests + 1 in
    let '(tr, r) := makeRequest_body net method endpoint data in
    Some (tr, r, activeRequests1 - 1).

End WithClient.

End Executor.
Export Executor.

(** ** The public operations *)

Module Wrappers.

Record TranslateOptions := mkTranslateOptions {
  text : string;
  source : option string;
  target : string
}.

Record BatchTranslateOptions := mkBatchOptions {
  texts : option (list string);
  batch_source : option string;
  batch_target : string
}.

Section WithClient.

Variable this : TranslatePlusClient.

(** Lines 271-277. *)
Definition translate_data (options : TranslateOptions) : JSON :=
  JObj [("text", JStr (text options));
        ("source", JStr (string_or (source options) "auto"));
        ("target", JStr (target options))].

Definition translate (activeRequests : Z) (net : nat -> FetchOutcome)
    (options : TranslateOptions) : option (list Event * Settled JSON * Z) :=
  makeRequest this activeRequests net "POST" "/v2/translate" (Some (translate_data options)).

(** What the promise of [translate] settles to once the call is admitted. *)
Definition translate_settles (net : nat -> FetchOutcome) (options : TranslateOptions)
    : Settled JSON :=
  snd (makeRequest_body this net "POST" "/v2/translate" (Some (translate_data options))).

(** Lines 295-308. *)
Definition translateBatch (activeRequests : Z) (net : nat -> FetchOutcome)
    (options : BatchTranslateOptions) : option (list Event * Settled JSON * Z) :=
  match texts options with
  | None =>
      Some ([], Rejected (new_error TranslatePlusValidationError "Texts array cannot be empty"),
            activeRequests)
  | Some l =>
      if (length l =? 0)%nat then
        Some ([], Rejected (new_error TranslatePlusValidationError "Texts array cannot be empty"),
              activeRequests)
      else if (100 <? length l)%nat then
        Some ([], Rejected (new_error TranslatePlusValidationError
                              "Maximum 100 texts allowed per batch request"),
              activeRequests)
      else
        makeRequest this activeRequests net "POST" "/v2/translate/batch"
          (Some (JObj [("texts", JArr (map JStr l));
                       ("source", JStr (string_or (batch_source options) "auto"));
                       ("target", JStr (batch_target options))]))
  end.

(** Lines 516-523 of [downloadI18nFile]: from the settled [fetch] on. *)
Definition download_settles (o : FetchOutcome) : Settled string :=
  match o with
  | Aborted => Rejected (new_error AbortError "The user aborted a request.")
  | Failed msg => Rejected (new_error OtherError msg)
  | Resolved r =>
      if 400 <=? status r then
        let errorData := json_or_empty r in
        match detail_or_status errorData (status r) with
        | inl e => Rejected e
        | inr errorMessage =>
            Rejected (new_api_error TranslatePlusAPIError errorMessage (status r) errorData)
        end
      else Fulfilled (arrayBuffer r)
  end.

(** Lines 506-524.  The function reads no field but [baseUrl] and [apiKey]:
    [activeRequests] goes through untouched. *)
Definition downloadI18nFile (activeRequests : Z) (o : FetchOutcome)
    (jobId languageCode : string) : list Event * Settled string * Z :=
  let url := baseUrl this +:+ "/v2/i18n/jobs/" +:+ jobId +:+ "/download/" +:+ languageCode in
  ([Fetch {| method := "GET"; url := url; body := None |}], download_settles o, activeRequests).

End WithClient.

(** *** [Promise.all] and [translateConcurrent] *)

(** [p.catch(h)] *)
Definition promise_catch {A : Type} (p : Settled A) (h : JSError -> A) : Settled A :=
  match p with
  | Fulfilled v => Fulfilled v
  | Rejected e => Fulfilled (h e)
  end.

(** [Promise.all] watches its promises settle in some order: a fulfilment
    of promise [i] is stored in slot [i] of the values, the first rejection
    rejects the whole. *)
Fixpoint all_collect {A : Type} (promises : list (Settled A)) (order : list nat)
    (values : list (option A)) : JSError + list (option A) :=
  match order with
  | [] => inr values
  | i :: rest =>
      match promises !! i with
      | Some (Fulfilled v) => all_collect promises rest (<[i := Some v]> values)
      | Some (Rejected e) => inl e
      | None => all_collect promises rest values
      end
  end.

Fixpoint all_filled {A : Type} (values : list (option A)) : option (list A) :=
  match values with
  | [] => Some []
  | Some v :: rest =>
      match all_filled rest with
      | Some l => Some (v :: l)
      | None => None
      end
  | None :: _ => None
  end.

(** [None]: still pending, some slot has not been filled. *)
Definition Promise_all {A : Type} (promises : list (Settled A)) (order : list nat)
    : option (Settled (list A)) :=
  match all_collect promises order (replicate (length promises) None) with
  | inl e => Some (Rejected e)
  | inr values =>
      match all_filled values with
      | Some l => Some (Fulfilled l)
      | None => None
      end
  end.

(** The handler of line 559: [{ error: error.message }]. *)
Definition error_slot (error : JSError) : JSON := JObj [("error", JStr (message error))].

(** A call of [translate] issued together with others on a client that
    is idle otherwise.  [None]: the call never leaves the admission loop of
    lines 93-95, which is the case when the client has no slot at all
    ([maxConcurrent <= 0], the counter being never negative).  Otherwise
    the call is admitted, at the latest when the calls before it have
    left, and its trace and result are those of the body of
    [makeRequest]. *)
Definition translate_call (this : TranslatePlusClient) (net : nat -> FetchOutcome)
    (options : TranslateOptions) : option (list Event * Settled JSON) :=
  if maxConcurrent this <=? 0 then None
  else Some (makeRequest_body this net "POST" "/v2/translate" (Some (translate_data options))).

(** Lines 558-562: the calls the [map] starts, one per text.  [nets i] is
    the network seen by the call for [texts[i]]. *)
Definition concurrent_calls (this : TranslatePlusClient) (nets : nat -> nat -> FetchOutcome)
    (texts : list string) (source : option string) (target : string)
    : list (option (list Event * Settled JSON)) :=
  let source := default "auto" source in
  imap (fun i text =>
          translate_call this (nets i)
            {| text := text; source := Some source; target := target |}) texts.

(** Lines 553-565.  [order] is the order in which the calls settle.  A
    call that never settles keeps [Promise.all] pending. *)
Definition translateConcurrent (this : TranslatePlusClient) (nets : nat -> nat -> FetchOutcome)
    (order : list nat) (texts : list string) (source : option string) (target : string)
    : option (Settled (list JSON)) :=
  match all_filled (concurrent_calls this nets texts source target) with
  | Some runs => Promise_all (map (fun run => promise_catch (snd run) error_slot) runs) order
  | None => None
  end.

End Wrappers.
Export Wrappers.

(** ** Several calls on one client instance

    JavaScript runs the code between two [await]s without interruption.
    A call is therefore a task that rests at one of its suspension points,
    and a step of the system resumes one task up to its next suspension
    point.  All tasks share the field [activeRequests]. *)

Module Concurrent.

(** The suspension points of a call. *)
Inductive Task :=
| Queued                                                  (* [makeRequest]: lines 93-95 *)
| Fetching (attempt : nat) (lastError : option JSError)   (* [makeRequest]: line 154 *)
| Backoff (attempt : nat) (lastError : option JSError)    (* [makeRequest]: lines 168, 225, 240 *)
| Done (r : Settled JSON)                                 (* [makeRequest] has settled *)
| Download                                                (* [downloadI18nFile] called *)
| Downloading                                             (* [downloadI18nFile]: line 509 *)
| Downloaded (r : Settled string).                        (* [downloadI18nFile] has settled *)

(** A write to [activeRequests]: line 97 and line 251. *)
Inductive CounterOp := Inc | Dec.

Record State := mkState {
  activeRequests : Z;
  pool : list Task;
  log : list (nat * CounterOp)       (* history: which task wrote the counter *)
}.

Definition init : State := {| activeRequests := 0; pool := []; log := [] |}.

(** Between line 97 and line 251. *)
Definition admitted (t : Task) : bool :=
  match t with
  | Fetching _ _ | Backoff _ _ => true
  | _ => false
  end.

(** A network call of the task is in flight. *)
Definition on_network (t : Task) : bool :=
  match t with
  | Fetching _ _ | Downloading => true
  | _ => false
  end.

Definition fetching (t : Task) : bool :=
  match t with
  | Fetching _ _ => true
  | _ => false
  end.

Definition settled (t : Task) : bool :=
  match t with
  | Done _ | Downloaded _ => true
  | _ => false
  end.

Definition in_flight_network_calls (s : State) : nat := count_if on_network (pool s).

Definition wrote (i : nat) (op : CounterOp) (e : nat * CounterOp) : bool :=
  (fst e =? i)%nat &&
  match snd e, op with
  | Inc, Inc | Dec, Dec => true
  | _, _ => false
  end.

(** How often task [i] has incremented, decremented the counter. *)
Definition increments (s : State) (i : nat) : nat := count_if (wrote i Inc) (log s).
Definition decrements (s : State) (i : nat) : nat := count_if (wrote i Dec) (log s).

Section WithClient.

Variable this : TranslatePlusClient.

(** The [finally] block of line 251, and the call settles. *)
Definition finish (active : Z) (r : Settled JSON) : Z * Task * list CounterOp :=
  (active - 1, Done r, [Dec]).

(** The loop test of line 147 for iteration [attempt]: issue the [fetch],
    or leave the loop, throw (line 247) and run [finally]. *)
Definition enter_loop (active : Z) (attempt : nat) (lastError : option JSError)
    : Z * Task * list CounterOp :=
  if Z.of_nat attempt <=? maxRetries this then (active, Fetching attempt lastError, [])
  else finish active (Rejected (retries_failed this lastError)).

(** Line 97, then the loop is entered. *)
Definition admission (active : Z) : Z * Task * list CounterOp :=
  let '(active', t, ops) := enter_loop (active + 1) 0 None in
  (active', t, Inc :: ops).

(** A task resumed when its [fetch] has settled with [o].  The outcome
    holds the decoded body too: the [await response.json()] of lines 171,
    181 and 207 is taken to settle.  The abort timer is cleared at line 161
    before it, so a body that never arrives would leave the task at this
    point for ever. *)
Definition after_fetch (active : Z) (attempt : nat) (lastError : option JSError)
    (o : FetchOutcome) : Z * Task * list CounterOp :=
  match attempt_body this attempt lastError o with
  | (_, Return v, _) => finish active (Fulfilled v)
  | (_, Throw e, _) => finish active (Rejected e)
  | (_, Continue, lastError') => (active, Backoff attempt lastError', [])
  | (_, Normal, lastError') => enter_loop active (S attempt) lastError'
  end.

Definition resume (s : State) (i : nat) (x : Z * Task * list CounterOp) : State :=
  let '(active, t, ops) := x in
  {| activeRequests := active;
     pool := <[i := t]> (pool s);
     log := log s ++ map (pair i) ops |}.

Inductive step : State -> State -> Prop :=
| step_call_makeRequest s :
    step s {| activeRequests := activeRequests s; pool := pool s ++ [Queued]; log := log s |}
| step_call_download s :
    step s {| activeRequests := activeRequests s; pool := pool s ++ [Download]; log := log s |}
| step_poll s i :                    (* line 93 true: sleep 10 ms, test again *)
    pool s !! i = Some Queued ->
    maxConcurrent this <= activeRequests s ->
    step s s
| step_admission s i :                   (* line 93 false, line 97, first loop test *)
    pool s !! i = Some Queued ->
    activeRequests s < maxConcurrent this ->
    step s (resume s i (admission (activeRequests s)))
| step_fetch s i attempt lastError o :
    pool s !! i = Some (Fetching attempt lastError) ->
    step s (resume s i (after_fetch (activeRequests s) attempt lastError o))
| step_wake s i attempt lastError :  (* the delay is over: [continue] *)
    pool s !! i = Some (Backoff attempt lastError) ->
    step s (resume s i (enter_loop (activeRequests s) (S attempt) lastError))
| step_download_fetch s i :          (* line 509: no admission test *)
    pool s !! i = Some Download ->
    step s (resume s i (activeRequests s, Downloading, []))
| step_download_done s i o :
    pool s !! i = Some Downloading ->
    step s (resume s i (activeRequests s, Downloaded (download_settles o), [])).

Definition reachable (s : State) : Prop := rtc step init s.

End WithClient.

End Concurrent.

(** ** Vocabulary of the properties *)

Import Concurrent.

(** A status that is an error but none of 401, 402, 403, 429. *)
Definition generic_status (st : Z) : Prop :=
  400 <= st /\ st <> 401 /\ st <> 402 /\ st <> 403 /\ st <> 429.

(** The error built for a generic error status. *)
Definition generic_error (r : FetchResponse) : JSError :=
  match detail_or_status (json_or_empty r) (status r) with
  | inl e => e
  | inr errorMessage =>
      new_api_error TranslatePlusAPIError errorMessage (status r) (json_or_empty r)
  end.

(** The value in slot [i] of the result of [translateConcurrent]. *)
Definition slot_of (this : TranslatePlusClient) (nets : nat -> nat -> FetchOutcome)
    (source : option string) (target : string) (i : nat) (text : string) : JSON :=
  match translate_settles this (nets i)
          {| text := text; source := Some (default "auto" source); target := target |} with
  | Fulfilled v => v
  | Rejected e => error_slot e
  end.

(** A call of [makeRequest] that has not settled yet. *)
Definition makeRequest_pending (t : Task) : bool :=
  match t with
  | Queued | Fetching _ _ | Backoff _ _ => true
  | _ => false
  end.

Definition op_is (op o : CounterOp) : bool :=
  match o, op with
  | Inc, Inc | Dec, Dec => true
  | _, _ => false
  end.

(** How often a task resting at [t] has incremented and decremented the
    counter. *)
Definition writes_so_far (t : Task) : nat * nat :=
  match t with
  | Fetching _ _ | Backoff _ _ => (1, 0)%nat
  | Done _ => (1, 1)%nat
  | Queued | Download | Downloading | Downloaded _ => (0, 0)%nat
  end.

Definition bit (b : bool) : nat := if b then 1%nat else 0%nat.

Record invariant (this : TranslatePlusClient) (s : State) : Prop := {
  inv_writes : forall i t, pool s !! i = Some t ->
               (increments s i, decrements s i) = writes_so_far t;
  inv_fresh : forall i, (length (pool s) <= i)%nat ->
              increments s i = 0%nat /\ decrements s i = 0%nat;
  inv_active : activeRequests s = Z.of_nat (count_if admitted (pool s));
  inv_cap : activeRequests s <= Z.max 0 (maxConcurrent this)
}.

(** A resumption that keeps the books: the writes it logs are those that
    separate the two suspension points, and the counter moves with the
    task entering or leaving the admitted region. *)
Definition keeps_books (this : TranslatePlusClient) (active : Z) (t : Task)
    (x : Z * Task * list CounterOp) : Prop :=
  let '(active', t', ops) := x in
  (fst (writes_so_far t') = fst (writes_so_far t) + count_if (op_is Inc) ops)%nat
  /\ (snd (writes_so_far t') = snd (writes_so_far t) + count_if (op_is Dec) ops)%nat
  /\ active' + Z.of_nat (bit (admitted t)) = active + Z.of_nat (bit (admitted t'))
  /\ (active <= Z.max 0 (maxConcurrent this) -> active' <= Z.max 0 (maxConcurrent this)).

(** ** Sample inputs *)

Module Samples.

(** [new TranslatePlusClient({ apiKey: 'test-api-key' })] *)
Definition default_client : TranslatePlusClient :=
  {| apiKey := "test-api-key";
     baseUrl := "https://api.translateplus.io";
     timeout := 30000;
     maxRetries := 3;
     maxConcurrent := 5 |}.

(** A client limited to one request at a time. *)
Definition single_slot_client : TranslatePlusClient :=
  {| apiKey := "test-api-key";
     baseUrl := "https://api.translateplus.io";
     timeout := 30000;
     maxRetries := 3;
     maxConcurrent := 1 |}.

(** A client constructed with [maxConcurrent: -1]. *)
Definition no_slot_client : TranslatePlusClient :=
  {| apiKey := "test-api-key";
     baseUrl := "https://api.translateplus.io";
     timeout := 30000;
     maxRetries := 3;
     maxConcurrent := -1 |}.

Definition translate_request : Request :=
  {| method := "POST"; url := "https://api.translateplus.io/v2/translate"; body := None |}.

Definition rate_limited : FetchResponse :=
  {| status := 429;
     header_Retry_After := Some "60";
     json := JsonOk (JObj [("detail", JStr "Rate limit exceeded")]);
     arrayBuffer := "" |}.

(** A 429 whose [Retry-After] is an HTTP date. *)
Definition rate_limited_until : FetchResponse :=
  {| status := 429;
     header_Retry_After := Some "Wed, 21 Oct 2015 07:28:00 GMT";
     json := JsonOk (JObj []);
     arrayBuffer := "" |}.

Definition server_error : FetchResponse :=
  {| status := 500;
     header_Retry_After := None;
     json := JsonOk (JObj [("detail", JStr "Internal error")]);
     arrayBuffer := "" |}.

Definition forbidden : FetchResponse :=
  {| status := 403;
     header_Retry_After := None;
     json := JsonOk (JObj [("detail", JStr "Invalid API key")]);
     arrayBuffer := "" |}.

(** A 401 whose body is the JSON document [null]. *)
Definition unauthorized_null : FetchResponse :=
  {| status := 401;
     header_Retry_After := None;
     json := JsonOk JNull;
     arrayBuffer := "null" |}.

(** A 404 whose body is the JSON document [null]. *)
Definition not_found_null : FetchResponse :=
  {| status := 404;
     header_Retry_After := None;
     json := JsonOk JNull;
     arrayBuffer := "null" |}.

Definition translated : FetchResponse :=
  {| status := 200;
     header_Retry_After := None;
     json := JsonOk (JObj [("translations",
               JObj [("text", JStr "Hello"); ("translation", JStr "Bonjour");
                     ("source", JStr "en"); ("target", JStr "fr")])]);
     arrayBuffer := "" |}.

(** Four network calls with waits of 1, 2 and 4 seconds in between. *)
Definition exhausted_trace : list Event :=
  [Fetch translate_request; Sleep (Num 1000);
   Fetch translate_request; Sleep (Num 2000);
   Fetch translate_request; Sleep (Num 4000);
   Fetch translate_request].

End Samples.
Import Samples.

(** ** Sample states *)

(** One call of [translate], admitted and answered with a translation. *)
Definition one_call_settled : State :=
  {| activeRequests := 0;
     pool := [Done (Fulfilled (JObj [("translations",
                JObj [("text", JStr "Hello"); ("translation", JStr "Bonjour");
                      ("source", JStr "en"); ("target", JStr "fr")])]))];
     log := [(0%nat, Inc); (0%nat, Dec)] |}.

(** One call waiting for its first response. *)
Definition one_call_fetching : State :=
  {| activeRequests := 1; pool := [Fetching 0 None]; log := [(0%nat, Inc)] |}.

(** Two downloads, both waiting for their response. *)
Definition two_downloads : State :=
  {| activeRequests := 0; pool := [Downloading; Downloading]; log := [] |}.

(** ** The remaining endpoints *)

Module Endpoints.

Record TranslateHTMLOptions := mkHTMLOptions {
  html : string;
  html_source : option string;
  html_target : string
}.

Record TranslateEmailOptions := mkEmailOptions {
  subject : string;
  email_body : string;
  email_source : option string;
  email_target : string
}.

Record TranslateSubtitleOptions := mkSubtitleOptions {
  content : string;
  format : string;
  subtitle_source : option string;
  subtitle_target : string
}.

Record I18nJobOptions := mkJobOptions {
  file_path : string;
  target_languages : list string;
  source_language : option string;
  webhook_url : option string
}.

Section WithClient.

Variable this : TranslatePlusClient.

(** Lines 326-332. *)
Definition translateHTML (activeRequests : Z) (net : nat -> FetchOutcome)
    (options : TranslateHTMLOptions) : option (list Event * Settled JSON * Z) :=
  makeRequest this activeRequests net "POST" "/v2/translate/html"
    (Some (JObj [("html", JStr (html options));
                 ("source", JStr (string_or (html_source options) "auto"));
                 ("target", JStr (html_target options))])).

(** Lines 351-358. *)
Definition translateEmail (activeRequests : Z) (net : nat -> FetchOutcome)
    (options : TranslateEmailOptions) : option (list Event * Settled JSON * Z) :=
  makeRequest this activeRequests net "POST" "/v2/translate/email"
    (Some (JObj [("subject", JStr (subject options));
                 ("email_body", JStr (email_body options));
                 ("source", JStr (string_or (email_source options) "auto"));
                 ("target", JStr (email_target options))])).

(** Lines 376-387. *)
Definition translateSubtitles (activeRequests : Z) (net : nat -> FetchOutcome)
    (options : TranslateSubtitleOptions) : option (list Event * Settled JSON * Z) :=
  if negb (String.eqb (format options) "srt") && negb (String.eqb (format options) "vtt") then
    Some ([], Rejected (new_error TranslatePlusValidationError "Format must be 'srt' or 'vtt'"),
          activeRequests)
  else
    makeRequest this activeRequests net "POST" "/v2/translate/subtitles"
      (Some (JObj [("content", JStr (content options));
                   ("format", JStr (format options));
                   ("source", JStr (string_or (subtitle_source options) "auto"));
                   ("target", JStr (subtitle_target options))])).

(** Lines 401-405. *)
Definition detectLanguage (activeRequests : Z) (net : nat -> FetchOutcome)
    (text : string) : option (list Event * Settled JSON * Z) :=
  makeRequest this activeRequests net "POST" "/v2/language/detect"
    (Some (JObj [("text", JStr text)])).

(** Lines 418-420. *)
Definition getSupportedLanguages (activeRequests : Z) (net : nat -> FetchOutcome)
    : option (list Event * Settled JSON * Z) :=
  makeRequest this activeRequests net "GET" "/v2/language/supported" None.

(** Lines 433-435. *)
Definition getAccountSummary (activeRequests : Z) (net : nat -> FetchOutcome)
    : option (list Event * Settled JSON * Z) :=
  makeRequest this activeRequests net "GET" "/v2/user/account" None.

(** Lines 481-483. *)
Definition getI18nJobStatus (activeRequests : Z) (net : nat -> FetchOutcome)
    (jobId : string) : option (list Event * Settled JSON * Z) :=
  makeRequest this activeRequests net "GET" ("/v2/i18n/jobs/" +:+ jobId) None.

(** Lines 531-533: the decoded body is dropped, the promise is fulfilled
    with [undefined]. *)
Definition deleteI18nJob (activeRequests : Z) (net : nat -> FetchOutcome)
    (jobId : string) : option (list Event * Settled unit * Z) :=
  match makeRequest this activeRequests net "DELETE" ("/v2/i18n/jobs/" +:+ jobId) None with
  | Some (tr, Fulfilled _, a) => Some (tr, Fulfilled tt, a)
  | Some (tr, Rejected e, a) => Some (tr, Rejected e, a)
  | None => None
  end.

End WithClient.

End Endpoints.
Export Endpoints.

(** ** The request on the wire: headers, multipart bodies, query strings *)

Module Wire.

(** A file handed to [makeRequest]: a path or a buffer. *)
Inductive FileArg :=
| FilePath (p : string)
| FileBuffer (bytes : string).

(** What [formData.append] receives. *)
Inductive FormValue :=
| FormField (v : string)                        (* append(key, String(data[key])) *)
| FormStream (p : string)                       (* append(key, fs.createReadStream(p)) *)
| FormBuffer (bytes : string) (filename : string).

Inductive WireBody :=
| NoBody                                        (* [undefined] *)
| JsonBody (d : JSON)                           (* [JSON.stringify(data)] *)
| FormBody (parts : list (string * FormValue)).

Record WireRequest := mkWire {
  w_method : string;
  w_url : string;
  w_headers : list (string * string);
  w_body : WireBody
}.

Inductive WireEvent :=
| WireFetch (w : WireRequest)
| WireSleep (ms : JSNumber).

(** A query parameter value: a string or a number. *)
Inductive ParamValue :=
| PStr (s : string)
| PNum (z : Z).

(** [String(v)] for a parameter value. *)
Definition param_String (v : ParamValue) : string :=
  match v with
  | PStr s => s
  | PNum z => string_of_Z z
  end.

(** [headers[k] = v]: replaces the value of an existing key in place,
    appends a new key. *)
Fixpoint set_header (k v : string) (headers : list (string * string))
    : list (string * string) :=
  match headers with
  | [] => [(k, v)]
  | (k', v') :: rest =>
      if String.eqb k k' then (k, v) :: rest else (k', v') :: set_header k v rest
  end.

(** [Object.assign(headers, more)] *)
Definition assign_headers (headers more : list (string * string)) : list (string * string) :=
  fold_left (fun h kv => set_header (fst kv) (snd kv) h) more headers.

Fixpoint get_header (k : string) (headers : list (string * string)) : option string :=
  match headers with
  | [] => None
  | (k', v) :: rest => if String.eqb k k' then Some v else get_header k rest
  end.

(** [Object.keys(data)] paired with [data[key]], for decoded JSON: the
    fields of an object, the indexed items of an array, the indexed
    characters of a string, nothing for the rest. *)
Fixpoint chars_of (s : string) : list JSON :=
  match s with
  | EmptyString => []
  | String c rest => JStr (String c EmptyString) :: chars_of rest
  end.

Definition object_entries (d : JSON) : list (string * JSON) :=
  match d with
  | JObj fields => fields
  | JArr items => imap (fun i x => (string_of_Z (Z.of_nat i), x)) items
  | JStr s => imap (fun i x => (string_of_Z (Z.of_nat i), x)) (chars_of s)
  | JNull | JBool _ | JNum _ => []
  end.

(** *** [URLSearchParams.toString()]: application/x-www-form-urlencoded *)

Definition hex_digit (n : nat) : ascii :=
  ascii_of_nat (if (n <? 10)%nat then 48 + n else 55 + n).

(** Bytes left as they are: ASCII letters and digits, and [*-._]. *)
Definition form_safe (c : ascii) : bool :=
  let n := nat_of_ascii c in
  ((48 <=? n) && (n <=? 57) || (65 <=? n) && (n <=? 90) || (97 <=? n) && (n <=? 122)
   || (n =? 42) || (n =? 45) || (n =? 46) || (n =? 95))%nat.

Fixpoint form_encode (s : string) : string :=
  match s with
  | EmptyString => EmptyString
  | String c rest =>
      if form_safe c then String c (form_encode rest)
      else if (nat_of_ascii c =? 32)%nat then String "+" (form_encode rest)
      else String "%" (String (hex_digit (nat_of_ascii c / 16))
                         (String (hex_digit (nat_of_ascii c mod 16)) (form_encode rest)))
  end.

Fixpoint join_amp (l : list string) : string :=
  match l with
  | [] => ""
  | [s] => s
  | s :: rest => s +:+ "&" +:+ join_amp rest
  end.

Definition URLSearchParams_toString (params : list (string * ParamValue)) : string :=
  join_amp (map (fun kv => form_encode (fst kv) +:+ "=" +:+ form_encode (param_String (snd kv)))
              params).

Section WithClient.

Variable this : TranslatePlusClient.

(** Modelled from the spec: the constant [__version__] of [src/version.ts],
    which is not among the sources; section 4.1 calls it the version string
    of the library identification header. *)
Variable version : string.

(** The headers [formData.getHeaders()] of the form-data package yields. *)
Variable form_headers : list (string * string).

(** Lines 101-104. *)
Definition base_headers : list (string * string) :=
  [("X-API-KEY", apiKey this); ("User-Agent", "translateplus-js/" +:+ version)].

(** Lines 112-124: the parts appended to the form, in order. *)
Definition form_parts (data : option JSON) (files : list (string * FileArg))
    : list (string * FormValue) :=
  (match data with
   | Some d => if truthy d
               then map (fun kv => (fst kv, FormField (to_String (snd kv)))) (object_entries d)
               else []
   | None => []
   end)
  ++ map (fun kf => (fst kf,
                     match snd kf with
                     | FilePath p => FormStream p
                     | FileBuffer b => FormBuffer b "file"
                     end)) files.

(** Lines 136-143. *)
Definition query_string (params : option (list (string * ParamValue))) : string :=
  match params with
  | Some ps => "?" +:+ URLSearchParams_toString ps
  | None => ""
  end.

(** Lines 90-143 and 154-159: what [fetch] is called with. *)
Definition build_wire_request (method endpoint : string) (data : option JSON)
    (files : option (list (string * FileArg)))
    (params : option (list (string * ParamValue))) : WireRequest :=
  let url := baseUrl this +:+ "/" +:+ strip_leading_slash endpoint in
  let '(headers, body) :=
    match files with
    | Some fs =>
        (assign_headers base_headers form_headers, FormBody (form_parts data fs))
    | None =>
        (set_header "Content-Type" "application/json" base_headers,
         match data with
         | Some d => if truthy d then JsonBody d else NoBody
         | None => NoBody
         end)
    end in
  {| w_method := method;
     w_url := url +:+ query_string params;
     w_headers := headers;
     w_body := body |}.

(** The request as the events of a trace show it. *)
Definition describe (w : WireRequest) : Request :=
  {| method := w_method w;
     url := w_url w;
     body := match w_body w with
             | JsonBody d => Some d
             | NoBody | FormBody _ => None
             end |}.

(** An event with the request as it goes on the wire. *)
Definition on_wire (w : WireRequest) (e : Event) : WireEvent :=
  match e with
  | Fetch _ => WireFetch w
  | Sleep ms => WireSleep ms
  end.

(** [makeRequest] with all five arguments: the retry loop sends the wire
    request built before it. *)
Definition makeRequest_wire (activeRequests : Z) (net : nat -> FetchOutcome)
    (method endpoint : string) (data : option JSON)
    (files : option (list (string * FileArg)))
    (params : option (list (string * ParamValue)))
    : option (list WireEvent * Settled JSON * Z) :=
  if maxConcurrent this <=? activeRequests then None
  else
    let activeRequests1 := activeRequests + 1 in
    let w := build_wire_request method endpoint data files params in
    let '(tr, r) := retry_loop this (describe w) net (attempts this) None in
    Some (map (on_wire w) tr, r, activeRequests1 - 1).

(** [path.resolve] and [fs.existsSync]: the file system as the code asks it. *)
Variable resolve : string -> string.
Variable existsSync : string -> bool.

(** Lines 459-465: the form fields of an i18n job. *)
Definition job_form (options : I18nJobOptions) : JSON :=
  JObj ([("source_language", JStr (string_or (source_language options) "auto"));
         ("target_languages", JStr (join_comma (target_languages options)))]
        ++ match webhook_url options with
           | Some u => if String.eqb u "" then [] else [("webhook_url", JStr u)]
           | None => []
           end).

(** Lines 453-473. *)
Definition createI18nJob (activeRequests : Z) (net : nat -> FetchOutcome)
    (options : I18nJobOptions) : option (list WireEvent * Settled JSON * Z) :=
  let filePath := resolve (file_path options) in
  if negb (existsSync filePath) then
    Some ([], Rejected (new_error TranslatePlusValidationError
                          ("File not found: " +:+ filePath)),
          activeRequests)
  else
    makeRequest_wire activeRequests net "POST" "/v2/i18n/jobs"
      (Some (job_form options)) (Some [("file", FilePath filePath)]) None.

(** Lines 492-497; [None] for an argument left out. *)
Definition listI18nJobs (activeRequests : Z) (net : nat -> FetchOutcome)
    (page pageSize : option Z) : option (list WireEvent * Settled JSON * Z) :=
  makeRequest_wire activeRequests net "GET" "/v2/i18n/jobs" None None
    (Some [("page", PStr (string_of_Z (default 1 page)));
           ("page_size", PStr (string_of_Z (default 20 pageSize)))]).

End WithClient.

End Wire.
Export Wire.

(** ** Vocabulary of the executor's properties *)

(** The events of one attempt: its network call, then its wait if any. *)
Definition attempt_events (req : Request) (wait : option JSNumber) : list Event :=
  Fetch req :: match wait with
               | Some ms => [Sleep ms]
               | None => []
               end.


(** What an outcome settles the call with, when it does: a decoded success
    (line 207), an authentication error (lines 185 and 219) or an
    insufficient-credits error (lines 191 and 219). *)
Definition decision (o : FetchOutcome) : option (Settled JSON) :=
  match o with
  | Resolved r =>
      if status r <? 400 then
        match json r with
        | JsonOk v => Some (Fulfilled v)
        | JsonFail _ => None
        end
      else
        match detail_or_status (json_or_empty r) (status r) with
        | inl _ => None
        | inr errorMessage =>
            if (status r =? 401) || (status r =? 403) then
              Some (Rejected (new_api_error TranslatePlusAuthenticationError
                                errorMessage (status r) (json_or_empty r)))
            else if status r =? 402 then
              Some (Rejected (new_api_error TranslatePlusInsufficientCreditsError
                                errorMessage (status r) (json_or_empty r)))
            else None
        end
  | Aborted | Failed _ => None
  end.

(** The first attempt of [l] whose outcome settles the call. *)
Fixpoint first_decision (net : nat -> FetchOutcome) (l : list nat)
    : option (nat * Settled JSON) :=
  match l with
  | [] => None
  | a :: rest =>
      match decision (net a) with
      | Some r => Some (a, r)
      | None => first_decision net rest
      end
  end.

(** * Properties *)

(** ** Generic facts *)

Lemma count_if_app {A : Type} (p : A -> bool) (l1 l2 : list A) :
  count_if p (l1 ++ l2) = (count_if p l1 + count_if p l2)%nat.
Proof.
  induction l1 as [|x l1 IH]; simpl; [reflexivity|].
  rewrite IH. lia.
Qed.

Ltac ztests :=
  repeat match goal with
    | |- context [Z.eqb ?a ?b] => destruct (Z.eqb_spec a b); try lia
    | |- context [Z.leb ?a ?b] => destruct (Z.leb_spec a b); try lia
    | |- context [Z.ltb ?a ?b] => destruct (Z.ltb_spec a b); try lia
    end.

(** ** Worked examples *)

Example parseInt_seconds : parseInt "60" = Num 60.
Proof. reflexivity. Qed.

Example parseInt_prefix : parseInt " 12abc" = Num 12 /\ parseInt "-5" = Num (-5).
Proof. split; reflexivity. Qed.

Example parseInt_not_a_number : parseInt "soon" = NaN /\ parseInt "" = NaN.
Proof. split; reflexivity. Qed.

(** Status 200: one network call, the decoded body is returned. *)
Example translate_succeeds :
  translate default_client 0 (fun _ => Resolved translated)
    {| text := "Hello"; source := Some "en"; target := "fr" |}
  = Some ([Fetch {| method := "POST";
                    url := "https://api.translateplus.io/v2/translate";
                    body := Some (JObj [("text", JStr "Hello"); ("source", JStr "en");
                                        ("target", JStr "fr")]) |}],
          Fulfilled (JObj [("translations",
             JObj [("text", JStr "Hello"); ("translation", JStr "Bonjour");
                   ("source", JStr "en"); ("target", JStr "fr")])]),
          0).
Proof. reflexivity. Qed.

(** Status 403 with a JSON object as body: one network call, an
    authentication error with status and payload. *)
Example forbidden_is_raised_at_once :
  makeRequest default_client 0 (fun _ => Resolved forbidden) "POST" "/v2/translate" None
  = Some ([Fetch translate_request],
          Rejected (new_api_error TranslatePlusAuthenticationError "Invalid API key" 403
                      (JObj [("detail", JStr "Invalid API key")])),
          0).
Proof. reflexivity. Qed.

(** A timeout on every attempt: retried with backoff, then the error of
    line 247. *)
Example timeouts_are_retried :
  makeRequest default_client 0 (fun _ => Aborted) "POST" "/v2/translate" None
  = Some (exhausted_trace,
          Rejected (new_error TranslatePlusAPIError
                      "Request failed after 3 retries: Request timeout after 30000ms"),
          0).
Proof. reflexivity. Qed.

(** A client whose slots are all taken does not run the call. *)
Example saturated_client_waits :
  makeRequest default_client 5 (fun _ => Resolved translated) "POST" "/v2/translate" None
  = None.
Proof. reflexivity. Qed.

(** ** One iteration of the retry loop *)

Section Attempt.

Variable this : TranslatePlusClient.

Lemma attempt_429_retry attempt lastError r :
  status r = 429 ->
  Z.of_nat attempt < maxRetries this ->
  attempt_body this attempt lastError (Resolved r)
  = ([Sleep (rate_limit_delay r attempt)], Continue, lastError).
Proof.
  intros Hst Hlt. unfold attempt_body, try_fetch. rewrite Hst. simpl.
  ztests. reflexivity.
Qed.

Lemma attempt_429_last attempt lastError r :
  status r = 429 ->
  maxRetries this <= Z.of_nat attempt ->
  attempt_body this attempt lastError (Resolved r)
  = ([], Normal,
     Some (new_api_error TranslatePlusRateLimitError
             "Rate limit exceeded. Please try again later." 429 (json_or_empty r))).
Proof.
  intros Hst Hge. unfold attempt_body, try_fetch. rewrite Hst. simpl.
  ztests. unfold catch_fetchError. simpl. ztests. reflexivity.
Qed.

Lemma attempt_generic attempt lastError r :
  generic_status (status r) ->
  attempt_body this attempt lastError (Resolved r)
  = if Z.of_nat attempt <? maxRetries this
    then ([Sleep (backoff_delay attempt)], Continue, Some (generic_error r))
    else ([], Normal, Some (generic_error r)).
Proof.
  intros (H400 & H401 & H402 & H403 & H429).
  unfold attempt_body, try_fetch, generic_error.
  destruct (Z.eqb_spec (status r) 429) as [|_]; [lia|].
  destruct (Z.leb_spec 400 (status r)) as [_|]; [|lia].
  destruct (detail_or_status (json_or_empty r) (status r)) as [e|msg] eqn:Hd.
  - unfold detail_or_status in Hd.
    destruct (get_prop (json_or_empty r) "detail"); inversion Hd; subst.
    unfold catch_fetchError. simpl. ztests; reflexivity.
  - destruct (Z.eqb_spec (status r) 401) as [|_]; [lia|].
    destruct (Z.eqb_spec (status r) 403) as [|_]; [lia|].
    destruct (Z.eqb_spec (status r) 402) as [|_]; [lia|].
    simpl. unfold catch_fetchError. simpl. ztests; reflexivity.
Qed.

End Attempt.

Section Loop.

Variable this : TranslatePlusClient.

Lemma detail_throws errorData st e :
  detail_or_status errorData st = inl e -> e = null_property_error "detail".
Proof.
  unfold detail_or_status.
  destruct (get_prop errorData "detail"); intros H; inversion H; reflexivity.
Qed.

(** Every way one iteration can complete: it returns; it throws an
    authentication or insufficient-credits error; it waits and continues
    (only before the last attempt); or it falls through without waiting
    (only on the last attempt). *)
Lemma attempt_body_shape attempt lastError o :
  match attempt_body this attempt lastError o with
  | (ev, Return _, _) => ev = []
  | (ev, Throw e, _) =>
      ev = [] /\ (cls e = TranslatePlusAuthenticationError
                  \/ cls e = TranslatePlusInsufficientCreditsError)
  | (ev, Continue, _) => (exists d, ev = [Sleep d]) /\ Z.of_nat attempt < maxRetries this
  | (ev, Normal, _) => ev = [] /\ maxRetries this <= Z.of_nat attempt
  end.
Proof.
  unfold attempt_body, try_fetch.
  destruct o as [r | | msg].
  - destruct (Z.eqb_spec (status r) 429).
    { destruct (Z.ltb_spec (Z.of_nat attempt) (maxRetries this)) as [Hlt|Hge].
      - split; [eauto | assumption].
      - unfold catch_fetchError; simpl.
        destruct (Z.ltb_spec (Z.of_nat attempt) (maxRetries this)); [lia|].
        split; [reflexivity | assumption]. }
    destruct (Z.leb_spec 400 (status r)).
    + destruct (detail_or_status (json_or_empty r) (status r)) as [e|m] eqn:Hd.
      * apply detail_throws in Hd. subst e.
        unfold catch_fetchError; simpl.
        destruct (Z.ltb_spec (Z.of_nat attempt) (maxRetries this)); split; eauto.
      * destruct ((status r =? 401) || (status r =? 403)).
        { unfold catch_fetchError, catch_error; simpl. split; [reflexivity | left; reflexivity]. }
        destruct (status r =? 402).
        { unfold catch_fetchError, catch_error; simpl. split; [reflexivity | right; reflexivity]. }
        destruct (status r =? 429).
        { unfold catch_fetchError; simpl.
          destruct (Z.ltb_spec (Z.of_nat attempt) (maxRetries this)); split; eauto. }
        unfold catch_fetchError; simpl.
        destruct (Z.ltb_spec (Z.of_nat attempt) (maxRetries this)); split; eauto.
    + destruct (json r) as [v|m]; [reflexivity|].
      unfold catch_fetchError; simpl.
      destruct (Z.ltb_spec (Z.of_nat attempt) (maxRetries this)); split; eauto.
  - unfold catch_fetchError, catch_error; simpl.
    destruct (Z.ltb_spec (Z.of_nat attempt) (maxRetries this)); split; eauto.
  - unfold catch_fetchError; simpl.
    destruct (Z.ltb_spec (Z.of_nat attempt) (maxRetries this)); split; eauto.
Qed.

(** An iteration issues no network call besides its own [fetch]. *)
Lemma attempt_body_no_fetch attempt lastError o :
  network_calls (fst (fst (attempt_body this attempt lastError o))) = 0%nat.
Proof.
  pose proof (attempt_body_shape attempt lastError o) as H.
  destruct (attempt_body this attempt lastError o) as [[ev c] le]. simpl.
  destruct c as [| |v|e].
  - destruct H as [-> _]. reflexivity.
  - destruct H as [[d ->] _]. reflexivity.
  - subst ev. reflexivity.
  - destruct H as [-> _]. reflexivity.
Qed.

(** The trace of a run in which no attempt returns or throws: one [fetch]
    per attempt, each followed by the events of that attempt. *)
Lemma retry_loop_exhausted req net (after : nat -> list Event) attempts :
  forall lastError,
  (forall a le, a ∈ attempts ->
     exists c le', attempt_body this a le (net a) = (after a, c, le')
                   /\ (c = Continue \/ c = Normal)) ->
  exists le',
    retry_loop this req net attempts lastError
    = (concat (map (fun a => Fetch req :: after a) attempts),
       Rejected (retries_failed this le')).
Proof.
  induction attempts as [|a rest IH]; intros lastError Hall; simpl.
  - eauto.
  - destruct (Hall a lastError) as (c & le1 & Hbody & Hc); [left|].
    rewrite Hbody.
    destruct (IH le1) as [le' Hrest].
    { intros a' le0 Hin. apply Hall. right. exact Hin. }
    rewrite Hrest.
    exists le'. destruct Hc; subst c; reflexivity.
Qed.

Lemma network_calls_exhausted req (after : nat -> list Event) attempts :
  (forall a, a ∈ attempts -> network_calls (after a) = 0%nat) ->
  network_calls (concat (map (fun a => Fetch req :: after a) attempts)) = length attempts.
Proof.
  unfold network_calls.
  induction attempts as [|a rest IH]; intros H; simpl; [reflexivity|].
  rewrite count_if_app, IH.
  - rewrite (H a); [reflexivity | left].
  - intros a' Hin. apply H. right. exact Hin.
Qed.

Lemma length_attempts : length (attempts this) = Z.to_nat (maxRetries this + 1).
Proof. unfold attempts. apply length_seq. Qed.

(** A call that is admitted runs its body and leaves the counter as it
    found it. *)
Lemma makeRequest_admitted activeRequests net method endpoint data :
  activeRequests < maxConcurrent this ->
  makeRequest this activeRequests net method endpoint data
  = Some (makeRequest_body this net method endpoint data, activeRequests).
Proof.
  intros Hlt. unfold makeRequest.
  destruct (Z.leb_spec (maxConcurrent this) activeRequests); [lia|].
  destruct (makeRequest_body this net method endpoint data) as [tr r].
  do 3 f_equal. lia.
Qed.

End Loop.

(** ** Error statuses in [makeRequest] *)

Section ErrorStatuses.

Variable this : TranslatePlusClient.

Lemma detail_of_non_null r :
  json r <> JsonOk JNull ->
  exists msg, detail_or_status (json_or_empty r) (status r) = inr msg.
Proof.
  intros Hnn. unfold detail_or_status, json_or_empty.
  destruct (json r) as [v|m]; [|simpl; eauto].
  destruct v; simpl; eauto; try congruence.
  destruct (assoc "detail" fields); eauto.
Qed.

Lemma attempts_cons :
  0 <= maxRetries this ->
  attempts this = 0%nat :: seq 1 (Z.to_nat (maxRetries this)).
Proof.
  intros H. unfold attempts.
  replace (Z.to_nat (maxRetries this + 1)) with (S (Z.to_nat (maxRetries this))) by lia.
  reflexivity.
Qed.

(** With a payload other than [null], a 401 or 403 on the first attempt is
    raised at once as an authentication error, a 402 as an
    insufficient-credits error, after one network call. *)
Lemma auth_and_credit_errors_not_retried net method endpoint data r :
  0 <= maxRetries this ->
  net 0%nat = Resolved r ->
  json r <> JsonOk JNull ->
  status r = 401 \/ status r = 403 \/ status r = 402 ->
  exists msg,
    makeRequest_body this net method endpoint data
    = ([Fetch (build_request this method endpoint data)],
       Rejected (new_api_error
                   (if status r =? 402 then TranslatePlusInsufficientCreditsError
                    else TranslatePlusAuthenticationError)
                   msg (status r) (json_or_empty r))).
Proof.
  intros Hretries Hnet Hnn Hst.
  destruct (detail_of_non_null r Hnn) as [msg Hmsg].
  exists msg. unfold makeRequest_body. rewrite (attempts_cons Hretries). simpl.
  rewrite Hnet. unfold attempt_body, try_fetch. rewrite Hmsg.
  destruct Hst as [Hst | [Hst | Hst]]; rewrite Hst; reflexivity.
Qed.

(** When every attempt is answered 429 the loop runs to its end and the
    error raised is the one of line 247, not the rate-limit error of
    line 172. *)
Lemma all_429_exhausts net method endpoint data :
  (forall k, exists r, net k = Resolved r /\ status r = 429) ->
  exists tr lastError,
    makeRequest_body this net method endpoint data
    = (tr, Rejected (retries_failed this lastError))
    /\ network_calls tr = Z.to_nat (maxRetries this + 1).
Proof.
  intros Hnet.
  set (after := fun a : nat =>
         fst (fst (attempt_body this a None (net a)))).
  destruct (retry_loop_exhausted this (build_request this method endpoint data)
              net after (attempts this) None) as [le Hrun].
  { intros a le0 _. destruct (Hnet a) as (r & Hr & Hst).
    unfold after. rewrite Hr.
    destruct (Z.ltb_spec (Z.of_nat a) (maxRetries this)).
    - rewrite !attempt_429_retry by assumption. simpl. eauto.
    - rewrite !attempt_429_last by assumption. simpl. eauto. }
  unfold makeRequest_body. rewrite Hrun.
  eexists _, le. split; [reflexivity|].
  rewrite network_calls_exhausted, length_attempts; [reflexivity|].
  intros a _. apply attempt_body_no_fetch.
Qed.

End ErrorStatuses.

(** C1, as stated, fails.  A 500 answered to every attempt of the default
    client is retried: four network calls, and the error raised carries
    neither the status nor the payload. *)
Lemma server_error_is_retried :
  makeRequest default_client 0 (fun _ => Resolved server_error) "POST" "/v2/translate" None
  = Some (exhausted_trace,
          Rejected (new_error TranslatePlusAPIError
                      "Request failed after 3 retries: Internal error"),
          0)
  /\ network_calls exhausted_trace <> 1%nat
  /\ statusCode (new_error TranslatePlusAPIError
                   "Request failed after 3 retries: Internal error") <> Some 500.
Proof. repeat split; discriminate. Qed.

(** C1, amended.  A response with a status >= 400 other than 401, 402, 403
    and 429 is not raised on that attempt: the executor handles it like a
    transient failure, waits [2^attempt * 1000] ms and tries again while
    [attempt < maxRetries].  When every attempt gets such a status, the
    call makes [maxRetries + 1] network calls, each but the last followed by
    that wait, and then raises a generic API error. *)
Theorem generic_status_is_retried this activeRequests net method endpoint data :
  activeRequests < maxConcurrent this ->
  (forall k, exists r, net k = Resolved r /\ generic_status (status r)) ->
  let tr := concat (map (fun a => Fetch (build_request this method endpoint data)
                                  :: if Z.of_nat a <? maxRetries this
                                     then [Sleep (backoff_delay a)] else [])
                      (attempts this)) in
  exists e,
    makeRequest this activeRequests net method endpoint data
    = Some (tr, Rejected e, activeRequests)
    /\ cls e = TranslatePlusAPIError
    /\ network_calls tr = Z.to_nat (maxRetries this + 1).
Proof.
  intros Hadm Hnet tr.
  rewrite makeRequest_admitted by assumption.
  destruct (retry_loop_exhausted this (build_request this method endpoint data) net
              (fun a => if Z.of_nat a <? maxRetries this
                        then [Sleep (backoff_delay a)] else [])
              (attempts this) None) as [le Hrun].
  { intros a le0 _. destruct (Hnet a) as (r & Hr & Hst).
    rewrite Hr, attempt_generic by assumption.
    destruct (Z.of_nat a <? maxRetries this); eauto. }
  unfold makeRequest_body. rewrite Hrun.
  exists (retries_failed this le). repeat split.
  unfold tr. rewrite network_calls_exhausted, length_attempts; [reflexivity|].
  intros a _. destruct (Z.of_nat a <? maxRetries this); reflexivity.
Qed.

Lemma generic_status_is_retried_witness :
  0 < maxConcurrent default_client
  /\ (forall k : nat, exists r, (fun _ : nat => Resolved server_error) k = Resolved r
                                /\ generic_status (status r))
  /\ exists e,
       makeRequest default_client 0 (fun _ => Resolved server_error)
         "POST" "/v2/translate" None
       = Some (exhausted_trace, Rejected e, 0)
       /\ cls e = TranslatePlusAPIError
       /\ network_calls exhausted_trace = 4%nat.
Proof.
  assert (H1 : 0 < maxConcurrent default_client) by reflexivity.
  assert (H2 : forall k : nat, exists r,
               (fun _ : nat => Resolved server_error) k = Resolved r
               /\ generic_status (status r)).
  { intros k. exists server_error. split; [reflexivity|].
    unfold generic_status. simpl. lia. }
  split; [exact H1|]. split; [exact H2|].
  exact (generic_status_is_retried default_client 0 (fun _ => Resolved server_error)
           "POST" "/v2/translate" None H1 H2).
Defined.

(** C5: the code at the failing input.  With the default client
    ([maxRetries = 3]) and 429 answered to every attempt, four network
    calls are made, and the call then fails with the generic API error of
    line 247, without status: the rate-limit error thrown at line 172 is
    caught by the [catch] of line 208 and never reaches the caller. *)
Theorem rate_limit_exhausted_is_generic :
  makeRequest default_client 0 (fun _ => Resolved rate_limited) "POST" "/v2/translate" None
  = Some (exhausted_trace,
          Rejected (new_error TranslatePlusAPIError
                      "Request failed after 3 retries: Rate limit exceeded. Please try again later."),
          0).
Proof. reflexivity. Qed.

(** C6: the code at the failing input.  A 401 whose body decodes to [null]
    makes [errorData.detail] throw before the authentication error is
    built; the [catch] of line 208 takes the [TypeError] for a transient
    failure and the request is retried to exhaustion. *)
Theorem unauthorized_null_is_retried :
  makeRequest default_client 0 (fun _ => Resolved unauthorized_null) "POST" "/v2/translate" None
  = Some (exhausted_trace,
          Rejected (new_error TranslatePlusAPIError
                      "Request failed after 3 retries: Cannot read properties of null (reading 'detail')"),
          0).
Proof. reflexivity. Qed.

(** ** The wait after a 429 *)

Lemma rate_limit_delay_parsed r attempt :
  rate_limit_delay r attempt
  = match parseInt (string_or (header_Retry_After r) "2") with
    | Num retryAfter => Num (Z.min (retryAfter * 1000) (2 ^ Z.of_nat attempt * 1000))
    | NaN => NaN
    end.
Proof.
  unfold rate_limit_delay.
  destruct (parseInt (string_or (header_Retry_After r) "2")); reflexivity.
Qed.

(** C4: the code at the failing input.  [Retry-After] may hold an HTTP
    date; the default of line 165 covers an absent or empty header only, so
    [parseInt] yields [NaN] and so does the delay handed to [setTimeout],
    where the claim has [min(2 * 1000, 2^0 * 1000)]. *)
Theorem retry_after_date_gives_no_delay :
  attempt_body default_client 0 None (Resolved rate_limited_until)
  = ([Sleep NaN], Continue, None)
  /\ NaN <> Num (Z.min (2 * 1000) (2 ^ 0 * 1000)).
Proof. split; [reflexivity | discriminate]. Qed.



(** ** The errors [makeRequest] can raise *)

Lemma retry_loop_rejects this req net attempts :
  forall lastError tr e,
  retry_loop this req net attempts lastError = (tr, Rejected e) ->
  cls e = TranslatePlusAPIError
  \/ cls e = TranslatePlusAuthenticationError
  \/ cls e = TranslatePlusInsufficientCreditsError.
Proof.
  induction attempts as [|a rest IH]; intros lastError tr e; simpl.
  - intros H. inversion H. left. reflexivity.
  - pose proof (attempt_body_shape this a lastError (net a)) as Hshape.
    destruct (attempt_body this a lastError (net a)) as [[ev c] le].
    destruct c as [| |v|e'].
    + destruct (retry_loop this req net rest le) as [ev' r] eqn:Hrest.
      intros H. inversion H; subst. eapply IH. exact Hrest.
    + destruct (retry_loop this req net rest le) as [ev' r] eqn:Hrest.
      intros H. inversion H; subst. eapply IH. exact Hrest.
    + intros H. inversion H.
    + intros H. inversion H; subst. right. tauto.
Qed.

Lemma makeRequest_never_validation this activeRequests net method endpoint data tr e a :
  makeRequest this activeRequests net method endpoint data = Some (tr, Rejected e, a) ->
  cls e <> TranslatePlusValidationError.
Proof.
  unfold makeRequest, makeRequest_body.
  destruct (maxConcurrent this <=? activeRequests); [discriminate|].
  destruct (retry_loop this (build_request this method endpoint data) net
              (attempts this) None) as [tr' r] eqn:Hrun.
  intros H. inversion H; subst.
  apply retry_loop_rejects in Hrun.
  destruct Hrun as [-> | [-> | ->]]; discriminate.
Qed.

(** ** [translateBatch] *)

(** C8.  A [texts] array of length 0 or of length above 100 makes
    [translateBatch] raise a validation error without any network call
    (and without touching the counter); with a length from 1 to 100 the
    call is handed to [makeRequest], which raises no validation error. *)
Theorem translateBatch_length_check this activeRequests net options l :
  texts options = Some l ->
  ((length l = 0 \/ 100 < length l)%nat ->
   exists msg,
     translateBatch this activeRequests net options
     = Some ([], Rejected (new_error TranslatePlusValidationError msg), activeRequests)
     /\ network_calls [] = 0%nat)
  /\ ((1 <= length l <= 100)%nat ->
      translateBatch this activeRequests net options
      = makeRequest this activeRequests net "POST" "/v2/translate/batch"
          (Some (JObj [("texts", JArr (map JStr l));
                       ("source", JStr (string_or (batch_source options) "auto"));
                       ("target", JStr (batch_target options))]))
      /\ forall tr e a,
           translateBatch this activeRequests net options = Some (tr, Rejected e, a) ->
           cls e <> TranslatePlusValidationError).
Proof.
  intros Htexts. unfold translateBatch. rewrite Htexts. split.
  - intros [H0 | H100].
    + rewrite H0. simpl. eauto.
    + destruct (Nat.eqb_spec (length l) 0); [eauto|].
      destruct (Nat.ltb_spec 100 (length l)); [eauto | lia].
  - intros [H1 H100].
    destruct (Nat.eqb_spec (length l) 0); [lia|].
    destruct (Nat.ltb_spec 100 (length l)); [lia|].
    split; [reflexivity|].
    intros tr e a. apply makeRequest_never_validation.
Qed.

Lemma translateBatch_length_check_witness :
  texts (mkBatchOptions (Some []) (Some "en") "fr") = Some []
  /\ exists msg,
       translateBatch default_client 0 (fun _ => Resolved translated)
         (mkBatchOptions (Some []) (Some "en") "fr")
       = Some ([], Rejected (new_error TranslatePlusValidationError msg), 0)
       /\ network_calls [] = 0%nat.
Proof.
  split; [reflexivity|].
  apply (translateBatch_length_check default_client 0 (fun _ => Resolved translated)
           (mkBatchOptions (Some []) (Some "en") "fr") [] eq_refl).
  left. reflexivity.
Defined.

(** ** The constructor *)

(** C10.  A [timeout], [maxRetries] or [maxConcurrent] passed as 0 yields
    the default (30000, 3, 5), exactly as when it is absent, and an empty
    [baseUrl] yields the production origin. *)
Theorem constructor_zero_overrides options :
  opt_apiKey options <> "" ->
  exists client,
    constructor options = inr client
    /\ (opt_timeout options = Some (Num 0) \/ opt_timeout options = None ->
        timeout client = 30000)
    /\ (opt_maxRetries options = Some (Num 0) \/ opt_maxRetries options = None ->
        maxRetries client = 3)
    /\ (opt_maxConcurrent options = Some (Num 0) \/ opt_maxConcurrent options = None ->
        maxConcurrent client = 5)
    /\ (opt_baseUrl options = Some "" \/ opt_baseUrl options = None ->
        baseUrl client = "https://api.translateplus.io").
Proof.
  intros Hkey. unfold constructor.
  destruct (String.eqb_spec (opt_apiKey options) ""); [contradiction|].
  eexists. split; [reflexivity|]. simpl.
  repeat split; intros [-> | ->]; reflexivity.
Qed.

Lemma constructor_zero_overrides_witness :
  opt_apiKey (mkOptions "test-api-key" (Some "") (Some (Num 0)) (Some (Num 0)) (Some (Num 0)))
  <> ""
  /\ exists client,
       constructor (mkOptions "test-api-key" (Some "") (Some (Num 0)) (Some (Num 0))
                      (Some (Num 0)))
       = inr client
       /\ timeout client = 30000 /\ maxRetries client = 3 /\ maxConcurrent client = 5
       /\ baseUrl client = "https://api.translateplus.io".
Proof.
  assert (H : opt_apiKey (mkOptions "test-api-key" (Some "") (Some (Num 0))
                            (Some (Num 0)) (Some (Num 0))) <> "") by discriminate.
  split; [exact H|].
  destruct (constructor_zero_overrides _ H) as (client & Hc & Ht & Hr & Hm & Hu).
  exists client. split; [exact Hc|].
  split; [apply Ht; left; reflexivity|].
  split; [apply Hr; left; reflexivity|].
  split; [apply Hm; left; reflexivity|].
  apply Hu; left; reflexivity.
Defined.

(** ** [downloadI18nFile] *)

(** Whatever the network answers, the download makes one network call,
    waits for nothing and leaves [activeRequests] alone. *)
Lemma downloadI18nFile_single_call this activeRequests o jobId languageCode :
  let '(tr, _, activeRequests') :=
    downloadI18nFile this activeRequests o jobId languageCode in
  network_calls tr = 1%nat /\ sleeps tr = [] /\ activeRequests' = activeRequests.
Proof. simpl. repeat split. Qed.

(** With a payload other than [null], an error status is raised as a
    generic API error carrying the status and the payload. *)
Lemma download_error_status r :
  400 <= status r ->
  json r <> JsonOk JNull ->
  exists msg,
    download_settles (Resolved r)
    = Rejected (new_api_error TranslatePlusAPIError msg (status r) (json_or_empty r)).
Proof.
  intros Hst Hnn. destruct (detail_of_non_null r Hnn) as [msg Hmsg].
  exists msg. unfold download_settles.
  destruct (Z.leb_spec 400 (status r)); [|lia].
  rewrite Hmsg. reflexivity.
Qed.

(** C9: the code at the failing input.  A 404 whose body decodes to [null]
    makes [errorData.detail] throw: the download is rejected with that
    [TypeError], not with an API error carrying the status. *)
Theorem download_null_payload_raises_type_error :
  downloadI18nFile default_client 0 (Resolved not_found_null) "job-1" "fr"
  = ([Fetch {| method := "GET";
               url := "https://api.translateplus.io/v2/i18n/jobs/job-1/download/fr";
               body := None |}],
     Rejected (new_error TypeError "Cannot read properties of null (reading 'detail')"),
     0).
Proof. reflexivity. Qed.

(** ** [Promise.all] and [translateConcurrent] *)

Section PromiseAll.

Context {A : Type}.

Lemma all_collect_fulfilled (vs : list A) (order : list nat) :
  forall values : list (option A),
  length values = length vs ->
  exists values',
    all_collect (map Fulfilled vs) order values = inr values'
    /\ length values' = length vs
    /\ forall i, values' !! i = if decide (i ∈ order) then Some <$> vs !! i else values !! i.
Proof.
  induction order as [|i0 rest IH]; intros values Hlen; simpl.
  - exists values. split; [reflexivity|]. split; [assumption|].
    intros i. destruct (decide (i ∈ [])) as [Hin|_]; [|reflexivity].
    inversion Hin.
  - change (map Fulfilled vs) with (Fulfilled <$> vs). rewrite list_lookup_fmap.
    destruct (vs !! i0) as [v|] eqn:Hv; simpl.
    + destruct (IH (<[i0 := Some v]> values)) as (values' & Hrun & Hlen' & Hlook).
      { rewrite length_insert. exact Hlen. }
      exists values'. split; [exact Hrun|]. split; [exact Hlen'|].
      intros i. rewrite Hlook.
      destruct (decide (i ∈ rest)) as [Hin|Hnin].
      * rewrite decide_True by (right; exact Hin). reflexivity.
      * destruct (decide (i = i0)) as [->|Hne].
        -- rewrite decide_True by left.
           rewrite list_lookup_insert_eq, Hv; [reflexivity|].
           rewrite Hlen. eapply lookup_lt_Some. exact Hv.
        -- rewrite list_lookup_insert_ne by congruence.
           rewrite decide_False; [reflexivity|].
           intros Hin. apply elem_of_cons in Hin. tauto.
    + destruct (IH values Hlen) as (values' & Hrun & Hlen' & Hlook).
      exists values'. split; [exact Hrun|]. split; [exact Hlen'|].
      intros i. rewrite Hlook.
      destruct (decide (i ∈ rest)) as [Hin|Hnin].
      * rewrite decide_True by (right; exact Hin). reflexivity.
      * destruct (decide (i = i0)) as [->|Hne].
        -- rewrite decide_True by left. rewrite Hv. simpl.
           apply lookup_ge_None. rewrite Hlen. apply lookup_ge_None. exact Hv.
        -- rewrite decide_False; [reflexivity|].
           intros Hin. apply elem_of_cons in Hin. tauto.
Qed.

Lemma all_filled_Some (vs : list A) : all_filled (map Some vs) = Some vs.
Proof. induction vs as [|v vs IH]; simpl; [reflexivity|]. rewrite IH. reflexivity. Qed.

(** When all promises are fulfilled and each settles once, [Promise.all]
    is fulfilled with their values in the order of the promises. *)
Lemma Promise_all_fulfilled (vs : list A) (order : list nat) :
  order ≡ₚ seq 0 (length vs) ->
  Promise_all (map Fulfilled vs) order = Some (Fulfilled vs).
Proof.
  intros Hperm. unfold Promise_all.
  destruct (all_collect_fulfilled vs order (replicate (length (map Fulfilled vs)) None))
    as (values' & Hrun & Hlen & Hlook).
  { rewrite length_replicate, length_map. reflexivity. }
  rewrite Hrun.
  assert (Heq : values' = map Some vs).
  { apply list_eq. intros i. rewrite Hlook.
    change (map Some vs) with (Some <$> vs). rewrite list_lookup_fmap.
    destruct (decide (i ∈ order)) as [_|Hnin]; [reflexivity|].
    assert (Hge : (length vs <= i)%nat).
    { destruct (Nat.le_gt_cases (length vs) i) as [|Hlt]; [assumption|].
      exfalso. apply Hnin. rewrite Hperm. apply elem_of_seq. lia. }
    rewrite (proj2 (lookup_ge_None vs i) Hge). simpl.
    apply lookup_ge_None. rewrite length_replicate, length_map. exact Hge. }
  rewrite Heq, all_filled_Some. reflexivity.
Qed.

End PromiseAll.


(** ** The in-flight counter under interleaving *)

Lemma count_if_insert {A : Type} (p : A -> bool) (l : list A) (i : nat) (x y : A) :
  l !! i = Some x ->
  (count_if p (<[i := y]> l) + bit (p x) = count_if p l + bit (p y))%nat.
Proof.
  intros Hx.
  rewrite insert_take_drop by (eapply lookup_lt_Some; exact Hx).
  rewrite <- (take_drop_middle l i x Hx) at 3.
  rewrite !count_if_app. simpl. unfold bit. destruct (p x), (p y); lia.
Qed.

Lemma count_wrote_map (j i : nat) (op : CounterOp) (ops : list CounterOp) :
  count_if (wrote j op) (map (pair i) ops)
  = if (i =? j)%nat then count_if (op_is op) ops else 0%nat.
Proof.
  induction ops as [|o ops IH]; simpl.
  - destruct (i =? j)%nat; reflexivity.
  - rewrite IH. unfold wrote. simpl.
    destruct (i =? j)%nat; simpl; [|reflexivity].
    destruct o, op; reflexivity.
Qed.

Section Invariant.

Variable this : TranslatePlusClient.

Lemma invariant_init : invariant this init.
Proof.
  split; simpl.
  - intros i t H. destruct i; discriminate H.
  - intros i _. split; reflexivity.
  - reflexivity.
  - lia.
Qed.

Lemma invariant_call s t :
  writes_so_far t = (0, 0)%nat -> admitted t = false ->
  invariant this s ->
  invariant this {| activeRequests := activeRequests s; pool := pool s ++ [t]; log := log s |}.
Proof.
  intros Hw Ha [Hwr Hfr Hact Hcap]. split; simpl.
  - intros i t' Hi. unfold increments, decrements in *. simpl.
    destruct (Nat.lt_ge_cases i (length (pool s))) as [Hlt|Hge].
    + rewrite lookup_app_l in Hi by exact Hlt. apply Hwr. exact Hi.
    + rewrite lookup_app_r in Hi by exact Hge.
      destruct (i - length (pool s))%nat eqn:Hd; simpl in Hi; [|destruct n; discriminate Hi].
      inversion Hi; subst t'. rewrite Hw.
      destruct (Hfr i Hge) as [-> ->]. reflexivity.
  - intros i Hi. rewrite length_app in Hi. simpl in Hi.
    apply (Hfr i). lia.
  - rewrite count_if_app. simpl. rewrite Ha. simpl. rewrite Hact. lia.
  - exact Hcap.
Qed.

Lemma invariant_resume s i t x :
  pool s !! i = Some t ->
  keeps_books this (activeRequests s) t x ->
  invariant this s ->
  invariant this (resume s i x).
Proof.
  intros Hi Hx [Hwr Hfr Hact Hcap].
  destruct x as [[active' t'] ops]. destruct Hx as (Hinc & Hdec & Hmove & Hbound).
  pose proof (lookup_lt_Some _ _ _ Hi) as Hlt.
  split; simpl.
  - intros j tj Hj. unfold increments, decrements in *. simpl.
    rewrite !count_if_app, !count_wrote_map.
    destruct (Nat.eqb_spec i j) as [<-|Hne].
    + rewrite list_lookup_insert_eq in Hj by exact Hlt.
      inversion Hj; subst tj.
      specialize (Hwr i t Hi).
      assert (H1 := f_equal fst Hwr). assert (H2 := f_equal snd Hwr).
      simpl in H1, H2. rewrite H1, H2, <- Hinc, <- Hdec.
      destruct (writes_so_far t'); reflexivity.
    + rewrite list_lookup_insert_ne in Hj by exact Hne.
      rewrite !Nat.add_0_r. apply Hwr. exact Hj.
  - intros j Hj. rewrite length_insert in Hj.
    unfold increments, decrements in *. simpl.
    rewrite !count_if_app, !count_wrote_map.
    destruct (Nat.eqb_spec i j) as [<-|Hne]; [lia|].
    rewrite !Nat.add_0_r. apply Hfr. exact Hj.
  - pose proof (count_if_insert admitted (pool s) i t t' Hi). lia.
  - apply Hbound. exact Hcap.
Qed.

Lemma finish_keeps_books active t r :
  admitted t = true -> writes_so_far t = (1, 0)%nat ->
  keeps_books this active t (finish active r).
Proof.
  intros Ha Hw. unfold keeps_books, finish. rewrite Ha, Hw. simpl.
  repeat split; lia.
Qed.

Lemma enter_loop_keeps_books active t attempt lastError :
  admitted t = true -> writes_so_far t = (1, 0)%nat ->
  keeps_books this active t (enter_loop this active attempt lastError).
Proof.
  intros Ha Hw. unfold enter_loop.
  destruct (Z.of_nat attempt <=? maxRetries this).
  - unfold keeps_books. rewrite Ha, Hw. simpl. repeat split; lia.
  - apply finish_keeps_books; assumption.
Qed.

Lemma admission_keeps_books active :
  active < maxConcurrent this ->
  keeps_books this active Queued (admission this active).
Proof.
  intros Hlt. unfold admission, enter_loop, finish.
  destruct (Z.of_nat 0 <=? maxRetries this); simpl; repeat split; lia.
Qed.

Lemma after_fetch_keeps_books active attempt lastError o :
  keeps_books this active (Fetching attempt lastError)
    (after_fetch this active attempt lastError o).
Proof.
  unfold after_fetch.
  destruct (attempt_body this attempt lastError o) as [[ev c] le].
  destruct c.
  - apply enter_loop_keeps_books; reflexivity.
  - simpl. repeat split; lia.
  - apply finish_keeps_books; reflexivity.
  - apply finish_keeps_books; reflexivity.
Qed.

Lemma invariant_step s s' :
  step this s s' -> invariant this s -> invariant this s'.
Proof.
  intros Hstep Hinv.
  destruct Hstep as [s | s | s i Hi Hfull | s i Hi Hfree | s i attempt le o Hi
                     | s i attempt le Hi | s i Hi | s i o Hi].
  - apply invariant_call; [reflexivity | reflexivity | exact Hinv].
  - apply invariant_call; [reflexivity | reflexivity | exact Hinv].
  - exact Hinv.
  - eapply invariant_resume; [exact Hi | | exact Hinv].
    apply admission_keeps_books. exact Hfree.
  - eapply invariant_resume; [exact Hi | | exact Hinv].
    apply after_fetch_keeps_books.
  - eapply invariant_resume; [exact Hi | | exact Hinv].
    apply enter_loop_keeps_books; reflexivity.
  - eapply invariant_resume; [exact Hi | | exact Hinv].
    simpl. repeat split; lia.
  - eapply invariant_resume; [exact Hi | | exact Hinv].
    simpl. repeat split; lia.
Qed.

Lemma invariant_reachable s : reachable this s -> invariant this s.
Proof.
  unfold reachable. intros Hreach.
  revert s Hreach.
  apply (rtc_ind_r (R := step this) (fun s0 => invariant this s0) init).
  - apply invariant_init.
  - intros y z _ Hstep IH. eapply invariant_step; eassumption.
Qed.

End Invariant.

(** ** The interleaved call agrees with the executor *)

Section Agreement.

Variable this : TranslatePlusClient.
Variable req : Request.
Variable net : nat -> FetchOutcome.

Lemma resume_lookup s i t x :
  pool s !! i = Some t ->
  pool (resume s i x) !! i = Some (snd (fst x))
  /\ activeRequests (resume s i x) = fst (fst x).
Proof.
  intros Hi. destruct x as [[active' t'] ops]. simpl. split; [|reflexivity].
  apply list_lookup_insert_eq. eapply lookup_lt_Some. exact Hi.
Qed.

(** From the loop test of attempt [a] on, the task can run to the end
    whatever the network answers; it settles with the result of
    [retry_loop] over the remaining attempts, and the counter has gone down
    by one. *)
Lemma loop_settles n :
  forall a lastError s i active,
  n = Z.to_nat (maxRetries this + 1 - Z.of_nat a) ->
  pool s !! i = Some (snd (fst (enter_loop this active a lastError))) ->
  activeRequests s = fst (fst (enter_loop this active a lastError)) ->
  exists s',
    rtc (step this) s s'
    /\ pool s' !! i = Some (Done (snd (retry_loop this req net (seq a n) lastError)))
    /\ activeRequests s' = active - 1.
Proof.
  induction n as [|m IH]; intros a lastError s i active Hn Hi Hact.
  - unfold enter_loop in Hi, Hact.
    destruct (Z.leb_spec (Z.of_nat a) (maxRetries this)); [lia|].
    exists s. split; [apply rtc_refl|]. split; assumption.
  - unfold enter_loop in Hi, Hact.
    destruct (Z.leb_spec (Z.of_nat a) (maxRetries this)); [|lia].
    simpl in Hi, Hact.
    pose proof (step_fetch this s i a lastError (net a) Hi) as Hstep.
    rewrite Hact in Hstep.
    destruct (resume_lookup s i _ (after_fetch this active a lastError (net a)) Hi)
      as [Hi1 Hact1].
    unfold after_fetch in Hstep, Hi1, Hact1. simpl.
    destruct (attempt_body this a lastError (net a)) as [[ev c] le'].
    assert (Hm : m = Z.to_nat (maxRetries this + 1 - Z.of_nat (S a))) by lia.
    destruct c as [| |v|e].
    + destruct (IH (S a) le' _ i active Hm Hi1 Hact1) as (s' & Hrun & Hdone & Hfin).
      exists s'. split; [eapply rtc_l; eassumption|].
      destruct (retry_loop this req net (seq (S a) m) le'). split; assumption.
    + set (s1 := resume s i (active, Backoff a le', [])) in *.
      assert (Hi1' : pool s1 !! i = Some (Backoff a le')) by exact Hi1.
      pose proof (step_wake this s1 i a le' Hi1') as Hwake.
      change (activeRequests s1) with active in Hwake.
      destruct (resume_lookup s1 i _ (enter_loop this active (S a) le') Hi1')
        as [Hi2 Hact2].
      destruct (IH (S a) le' _ i active Hm Hi2 Hact2) as (s' & Hrun & Hdone & Hfin).
      exists s'. split; [eapply rtc_l; [exact Hstep|]; eapply rtc_l; eassumption|].
      destruct (retry_loop this req net (seq (S a) m) le'). split; assumption.
    + eexists. split; [apply rtc_once; exact Hstep|]. split; assumption.
    + eexists. split; [apply rtc_once; exact Hstep|]. split; assumption.
Qed.

(** A queued call that finds a free slot can run to the end; it settles
    with the result of [makeRequest]'s body and the counter is back where
    it was. *)
Lemma admitted_call_settles s i :
  pool s !! i = Some Queued ->
  activeRequests s < maxConcurrent this ->
  exists s',
    rtc (step this) s s'
    /\ pool s' !! i = Some (Done (snd (retry_loop this req net (attempts this) None)))
    /\ activeRequests s' = activeRequests s.
Proof.
  intros Hi Hfree.
  pose proof (step_admission this s i Hi Hfree) as Hstep.
  destruct (resume_lookup s i _ (admission this (activeRequests s)) Hi) as [Hi1 Hact1].
  assert (Ht : snd (fst (admission this (activeRequests s)))
               = snd (fst (enter_loop this (activeRequests s + 1) 0 None))).
  { unfold admission. destruct (enter_loop this (activeRequests s + 1) 0 None) as [[? ?] ?].
    reflexivity. }
  assert (Ha : fst (fst (admission this (activeRequests s)))
               = fst (fst (enter_loop this (activeRequests s + 1) 0 None))).
  { unfold admission. destruct (enter_loop this (activeRequests s + 1) 0 None) as [[? ?] ?].
    reflexivity. }
  rewrite Ht in Hi1. rewrite Ha in Hact1.
  destruct (loop_settles (Z.to_nat (maxRetries this + 1)) 0%nat None
              (resume s i (admission this (activeRequests s))) i
              (activeRequests s + 1)) as (s' & Hrun & Hdone & Hfin);
    [f_equal; lia | exact Hi1 | exact Hact1 |].
  exists s'. split; [eapply rtc_l; eassumption|].
  split; [exact Hdone | lia].
Qed.

End Agreement.

Lemma one_call_fetching_reachable : reachable default_client one_call_fetching.
Proof.
  unfold reachable.
  eapply rtc_l; [apply step_call_makeRequest|].
  eapply rtc_l.
  { apply (step_admission default_client _ 0%nat); [reflexivity | simpl; lia]. }
  apply rtc_refl.
Qed.

Lemma one_call_settled_reachable : reachable default_client one_call_settled.
Proof.
  unfold reachable.
  eapply rtc_r; [apply one_call_fetching_reachable|].
  apply (step_fetch default_client one_call_fetching 0%nat 0%nat None (Resolved translated)).
  reflexivity.
Qed.

Lemma two_downloads_reachable : reachable single_slot_client two_downloads.
Proof.
  unfold reachable.
  eapply rtc_l; [apply step_call_download|].
  eapply rtc_l; [apply step_call_download|].
  eapply rtc_l; [apply (step_download_fetch single_slot_client _ 0%nat); reflexivity|].
  eapply rtc_l; [apply (step_download_fetch single_slot_client _ 1%nat); reflexivity|].
  apply rtc_refl.
Qed.

Lemma no_pending_no_admitted (l : list Task) :
  forallb (fun t => negb (makeRequest_pending t)) l = true ->
  count_if admitted l = 0%nat.
Proof.
  induction l as [|t l IH]; simpl; [reflexivity|].
  intros H. apply andb_prop in H. destruct H as [Ht Hl].
  rewrite (IH Hl). destruct t; simpl in *; try reflexivity; discriminate Ht.
Qed.

Lemma count_if_le {A : Type} (p q : A -> bool) (l : list A) :
  (forall x, p x = true -> q x = true) ->
  (count_if p l <= count_if q l)%nat.
Proof.
  intros Hpq. induction l as [|x l IH]; simpl; [lia|].
  destruct (p x) eqn:Hp.
  - rewrite (Hpq x Hp). lia.
  - destruct (q x); lia.
Qed.

(** C2.  In every state the calls on one client can reach, a call of
    [makeRequest] that still waits for admission has written the counter
    not at all, an admitted call has incremented it once, and a settled
    call, however it ended, has incremented it once and decremented it
    once; the counter equals the number of admitted calls, and is zero once
    no call of [makeRequest] is pending. *)
Theorem counter_balanced this s :
  reachable this s ->
  (forall i, pool s !! i = Some Queued ->
     increments s i = 0%nat /\ decrements s i = 0%nat)
  /\ (forall i t, pool s !! i = Some t -> admitted t = true ->
        increments s i = 1%nat /\ decrements s i = 0%nat)
  /\ (forall i r, pool s !! i = Some (Done r) ->
        increments s i = 1%nat /\ decrements s i = 1%nat)
  /\ activeRequests s = Z.of_nat (count_if admitted (pool s))
  /\ (forallb (fun t => negb (makeRequest_pending t)) (pool s) = true ->
      activeRequests s = 0).
Proof.
  intros Hreach. apply invariant_reachable in Hreach.
  destruct Hreach as [Hwr _ Hact _].
  split; [|split; [|split; [|split]]].
  - intros i Hi. specialize (Hwr i _ Hi). inversion Hwr. split; reflexivity.
  - intros i t Hi Ha. specialize (Hwr i _ Hi).
    destruct t; try discriminate Ha; inversion Hwr; split; reflexivity.
  - intros i r Hi. specialize (Hwr i _ Hi). inversion Hwr. split; reflexivity.
  - exact Hact.
  - intros Hnone. rewrite Hact, (no_pending_no_admitted _ Hnone). reflexivity.
Qed.

Lemma counter_balanced_witness :
  reachable default_client one_call_settled
  /\ increments one_call_settled 0 = 1%nat
  /\ decrements one_call_settled 0 = 1%nat
  /\ activeRequests one_call_settled = 0.
Proof.
  pose proof one_call_settled_reachable as H.
  destruct (counter_balanced default_client one_call_settled H)
    as (_ & _ & Hdone & _ & Hzero).
  split; [exact H|].
  destruct (Hdone 0%nat _ eq_refl) as [Hinc Hdec].
  split; [exact Hinc|]. split; [exact Hdec|].
  apply Hzero. reflexivity.
Defined.

(** C3, as stated, fails.  [downloadI18nFile] issues its network call
    without the admission test: on a client with [maxConcurrent = 1] two
    downloads are in flight together. *)
Lemma downloads_exceed_cap :
  reachable single_slot_client two_downloads
  /\ maxConcurrent single_slot_client < Z.of_nat (in_flight_network_calls two_downloads).
Proof. split; [apply two_downloads_reachable | reflexivity]. Qed.

(** C3, amended.  For the operations that go through [makeRequest] (all
    but [downloadI18nFile]): a call leaves the admission loop only while
    fewer than [maxConcurrent] calls are admitted, and in every reachable
    state the number of [makeRequest] network calls in flight is at most
    the number of admitted calls, which never exceeds [maxConcurrent] (nor
    zero when [maxConcurrent] is negative). *)
Theorem makeRequest_calls_bounded this s :
  reachable this s ->
  (count_if fetching (pool s) <= count_if admitted (pool s))%nat
  /\ Z.of_nat (count_if admitted (pool s)) <= Z.max 0 (maxConcurrent this)
  /\ Z.of_nat (count_if fetching (pool s)) <= Z.max 0 (maxConcurrent this)
  /\ (forall s' i, step this s s' ->
        pool s !! i = Some Queued -> pool s' !! i <> Some Queued ->
        activeRequests s < maxConcurrent this).
Proof.
  intros Hreach. apply invariant_reachable in Hreach.
  destruct Hreach as [_ _ Hact Hcap].
  assert (Hle : (count_if fetching (pool s) <= count_if admitted (pool s))%nat).
  { apply count_if_le. intros t Ht. destruct t; try discriminate Ht; reflexivity. }
  split; [exact Hle|]. split; [lia|]. split; [lia|].
  intros s' i Hstep Hq Hnq.
  assert (Hother : forall (j : nat) (t t' : Task) (x : Z) (ops : list CounterOp),
             pool s !! j = Some t -> t <> Queued ->
             pool (resume s j (x, t', ops)) !! i = Some Queued).
  { intros j t t' x ops Hj Hne. simpl.
    rewrite list_lookup_insert_ne; [exact Hq|].
    intros ->. rewrite Hq in Hj. inversion Hj. congruence. }
  inversion Hstep as [s0 | s0 | s0 j Hj Hfull | s0 j Hj Hfree | s0 j attempt le o Hj
                      | s0 j attempt le Hj | s0 j Hj | s0 j o Hj]; subst.
  - exfalso. apply Hnq. simpl. rewrite lookup_app_l; [exact Hq|].
    eapply lookup_lt_Some. exact Hq.
  - exfalso. apply Hnq. simpl. rewrite lookup_app_l; [exact Hq|].
    eapply lookup_lt_Some. exact Hq.
  - contradiction.
  - exact Hfree.
  - exfalso. apply Hnq.
    destruct (after_fetch this (activeRequests s) attempt le o) as [[x t'] ops].
    eapply Hother; [exact Hj | discriminate].
  - exfalso. apply Hnq.
    destruct (enter_loop this (activeRequests s) (S attempt) le) as [[x t'] ops].
    eapply Hother; [exact Hj | discriminate].
  - exfalso. apply Hnq. eapply Hother; [exact Hj | discriminate].
  - exfalso. apply Hnq. eapply Hother; [exact Hj | discriminate].
Qed.

Lemma makeRequest_calls_bounded_witness :
  reachable default_client one_call_fetching
  /\ Z.of_nat (count_if fetching (pool one_call_fetching)) <= 5.
Proof.
  pose proof one_call_fetching_reachable as H.
  destruct (makeRequest_calls_bounded default_client one_call_fetching H)
    as (_ & _ & Hbound & _).
  split; [exact H | exact Hbound].
Defined.

(** * Further properties of the executor *)

Section Decisions.

Variable this : TranslatePlusClient.

(** An outcome that settles the call does so at any attempt, without a
    wait; any other outcome sends the loop to its next iteration. *)
Lemma attempt_decision attempt lastError o :
  match decision o with
  | Some (Fulfilled v) => attempt_body this attempt lastError o = ([], Return v, lastError)
  | Some (Rejected e) => attempt_body this attempt lastError o = ([], Throw e, lastError)
  | None =>
      exists ev c lastError',
        attempt_body this attempt lastError o = (ev, c, lastError')
        /\ (c = Continue \/ c = Normal)
  end.
Proof.
  pose proof (attempt_body_shape this attempt lastError o) as Hshape.
  unfold decision. destruct o as [r | | msg].
  - destruct (Z.ltb_spec (status r) 400) as [Hlt|Hge].
    + unfold attempt_body, try_fetch.
      destruct (Z.eqb_spec (status r) 429); [lia|].
      destruct (Z.leb_spec 400 (status r)); [lia|].
      destruct (json r) as [v|m]; [reflexivity|].
      unfold catch_fetchError; simpl.
      destruct (Z.of_nat attempt <? maxRetries this); eauto 6.
    + destruct (detail_or_status (json_or_empty r) (status r)) as [e|m] eqn:Hd.
      * unfold attempt_body, try_fetch in *. rewrite Hd in *.
        destruct (Z.eqb_spec (status r) 429).
        { destruct (Z.of_nat attempt <? maxRetries this); [eauto 6|].
          unfold catch_fetchError; simpl.
          destruct (Z.of_nat attempt <? maxRetries this); eauto 6. }
        destruct (Z.leb_spec 400 (status r)); [|lia].
        apply detail_throws in Hd. subst e.
        unfold catch_fetchError; simpl.
        destruct (Z.of_nat attempt <? maxRetries this); eauto 6.
      * unfold attempt_body, try_fetch. rewrite Hd.
        destruct (Z.eqb_spec (status r) 429) as [H429|H429].
        { rewrite H429. simpl.
          destruct (Z.of_nat attempt <? maxRetries this) eqn:Hlt; [eauto 6|].
          unfold catch_fetchError; simpl. rewrite Hlt. eauto 6. }
        destruct (Z.leb_spec 400 (status r)); [|lia].
        destruct ((status r =? 401) || (status r =? 403)); [reflexivity|].
        destruct (status r =? 402); [reflexivity|].
        unfold catch_fetchError; simpl.
        destruct (Z.of_nat attempt <? maxRetries this); eauto 6.
  - unfold attempt_body, try_fetch, catch_fetchError, catch_error; simpl.
    destruct (Z.of_nat attempt <? maxRetries this); eauto 6.
  - unfold attempt_body, try_fetch, catch_fetchError; simpl.
    destruct (Z.of_nat attempt <? maxRetries this); eauto 6.
Qed.

Lemma retry_loop_first_decision req net n :
  forall a0 lastError,
  match first_decision net (seq a0 n) with
  | Some (a, d) =>
      snd (retry_loop this req net (seq a0 n) lastError) = d
      /\ network_calls (fst (retry_loop this req net (seq a0 n) lastError)) = S (a - a0)
      /\ (a0 <= a < a0 + n)%nat
  | None =>
      (exists lastError',
          snd (retry_loop this req net (seq a0 n) lastError)
          = Rejected (retries_failed this lastError'))
      /\ network_calls (fst (retry_loop this req net (seq a0 n) lastError)) = n
  end.
Proof.
  induction n as [|n IH]; intros a0 lastError; simpl.
  - split; [eauto | reflexivity].
  - pose proof (attempt_decision a0 lastError (net a0)) as Hd.
    pose proof (attempt_body_no_fetch this a0 lastError (net a0)) as Hnf.
    destruct (decision (net a0)) as [[v|e]|].
    + rewrite Hd. simpl. replace (a0 - a0)%nat with 0%nat by lia.
      repeat split; lia.
    + rewrite Hd. simpl. replace (a0 - a0)%nat with 0%nat by lia.
      repeat split; lia.
    + destruct Hd as (ev & c & le' & Hbody & Hc). rewrite Hbody in *. simpl in Hnf.
      specialize (IH (S a0) le').
      destruct (retry_loop this req net (seq (S a0) n) le') as [ev' r] eqn:Hrest.
      assert (Hcount : network_calls (Fetch req :: ev ++ ev') = S (network_calls ev')).
      { unfold network_calls in *. simpl. rewrite count_if_app, Hnf. reflexivity. }
      destruct (first_decision net (seq (S a0) n)) as [[a d]|].
      * destruct IH as (Hr & Hn & Hrange). simpl in Hr, Hn.
        destruct Hc; subst c; simpl; rewrite Hcount, Hn; repeat split; try assumption; lia.
      * destruct IH as (Hr & Hn). simpl in Hr, Hn.
        destruct Hc; subst c; simpl; rewrite Hcount, Hn; repeat split; assumption.
Qed.

End Decisions.

Lemma first_decision_found net l a d :
  first_decision net l = Some (a, d) -> a ∈ l /\ decision (net a) = Some d.
Proof.
  induction l as [|a' rest IH]; simpl; [discriminate|].
  destruct (decision (net a')) as [r|] eqn:Hd.
  - intros H. inversion H; subst. split; [left | exact Hd].
  - intros H. destruct (IH H) as [Hin Hdec]. split; [right; exact Hin | exact Hdec].
Qed.

Lemma decision_fulfilled o v :
  decision o = Some (Fulfilled v) ->
  exists r, o = Resolved r /\ status r < 400 /\ json r = JsonOk v.
Proof.
  unfold decision. destruct o as [r | | msg]; try discriminate.
  destruct (Z.ltb_spec (status r) 400) as [Hlt|Hge].
  - destruct (json r) as [v'|m] eqn:Hj; [|discriminate].
    intros H. inversion H; subst. eauto.
  - destruct (detail_or_status (json_or_empty r) (status r)); [discriminate|].
    destruct ((status r =? 401) || (status r =? 403)); [discriminate|].
    destruct (status r =? 402); discriminate.
Qed.

Lemma decision_rejected o e :
  decision o = Some (Rejected e) ->
  exists r msg,
    o = Resolved r
    /\ json r <> JsonOk JNull
    /\ ((status r = 401 \/ status r = 403)
        /\ e = new_api_error TranslatePlusAuthenticationError msg (status r) (json_or_empty r)
        \/ status r = 402
           /\ e = new_api_error TranslatePlusInsufficientCreditsError msg (status r)
                    (json_or_empty r)).
Proof.
  unfold decision. destruct o as [r | | msg]; try discriminate.
  destruct (Z.ltb_spec (status r) 400) as [Hlt|Hge].
  { destruct (json r); discriminate. }
  destruct (detail_or_status (json_or_empty r) (status r)) as [e'|m] eqn:Hd; [discriminate|].
  assert (Hnn : json r <> JsonOk JNull).
  { intros Hj. unfold json_or_empty in Hd. rewrite Hj in Hd. discriminate Hd. }
  destruct (Z.eqb_spec (status r) 401) as [H401|_]; simpl.
  { intros H. inversion H. exists r, m. split; [reflexivity|]. split; [exact Hnn|]. left. tauto. }
  destruct (Z.eqb_spec (status r) 403) as [H403|_]; simpl.
  { intros H. inversion H. exists r, m. split; [reflexivity|]. split; [exact Hnn|]. left. tauto. }
  destruct (Z.eqb_spec (status r) 402) as [H402|_]; [|discriminate].
  intros H. inversion H. exists r, m. split; [reflexivity|]. split; [exact Hnn|]. right. tauto.
Qed.


(** X2.  Every error [makeRequest] raises is one of three: an
    authentication error carrying status 401 or 403 and the payload, an
    insufficient-credits error carrying status 402 and the payload, or the
    error of line 247, a plain API error without status and payload.  No
    rate-limit error, no validation error and no API error with a status
    ever reaches the caller. *)
Theorem makeRequest_raises_only this activeRequests net method endpoint data tr e a :
  makeRequest this activeRequests net method endpoint data = Some (tr, Rejected e, a) ->
  (cls e = TranslatePlusAuthenticationError
   /\ (statusCode e = Some 401 \/ statusCode e = Some 403)
   /\ exists payload, response e = Some payload)
  \/ (cls e = TranslatePlusInsufficientCreditsError
      /\ statusCode e = Some 402
      /\ exists payload, response e = Some payload)
  \/ (cls e = TranslatePlusAPIError
      /\ statusCode e = None /\ response e = None
      /\ exists lastError, e = retries_failed this lastError).
Proof.
  unfold makeRequest.
  destruct (maxConcurrent this <=? activeRequests); [discriminate|].
  pose proof (Haux := retry_loop_first_decision this
                (build_request this method endpoint data) net
                (Z.to_nat (maxRetries this + 1)) 0%nat None).
  unfold makeRequest_body, attempts.
  destruct (retry_loop this (build_request this method endpoint data) net
              (seq 0 (Z.to_nat (maxRetries this + 1))) None) as [tr' r] eqn:Hrun.
  intros H. inversion H; subst. clear H.
  destruct (first_decision net (seq 0 (Z.to_nat (maxRetries this + 1))))
    as [[k d]|] eqn:Hfirst.
  - destruct Haux as (Hr & _). simpl in Hr. subst d.
    apply first_decision_found in Hfirst. destruct Hfirst as [_ Hdec].
    apply decision_rejected in Hdec.
    destruct Hdec as (r & msg & _ & _ & [[Hst ->] | [Hst ->]]); simpl.
    + left. split; [reflexivity|]. split; [|eauto].
      destruct Hst as [-> | ->]; tauto.
    + right. left. rewrite Hst. eauto.
  - destruct Haux as ((le & Hr) & _). simpl in Hr.
    inversion Hr. right. right. repeat split. eauto.
Qed.

Lemma makeRequest_raises_only_witness :
  makeRequest default_client 0 (fun _ => Resolved forbidden) "POST" "/v2/translate" None
  = Some ([Fetch translate_request],
          Rejected (new_api_error TranslatePlusAuthenticationError "Invalid API key" 403
                      (JObj [("detail", JStr "Invalid API key")])),
          0)
  /\ statusCode (new_api_error TranslatePlusAuthenticationError "Invalid API key" 403
                   (JObj [("detail", JStr "Invalid API key")])) = Some 403.
Proof.
  assert (H : makeRequest default_client 0 (fun _ => Resolved forbidden)
                "POST" "/v2/translate" None
              = Some ([Fetch translate_request],
                      Rejected (new_api_error TranslatePlusAuthenticationError
                                  "Invalid API key" 403
                                  (JObj [("detail", JStr "Invalid API key")])),
                      0)) by reflexivity.
  split; [exact H|].
  destruct (makeRequest_raises_only _ _ _ _ _ _ _ _ _ H)
    as [(_ & [H401 | H403] & _) | [(Hc & _) | (Hc & _)]];
    [discriminate H401 | exact H403 | discriminate Hc | discriminate Hc].
Defined.

(** X3.  When [makeRequest] returns a value, that value is the decoded body
    of the response to some attempt [a <= maxRetries] whose status is below
    400; exactly [a + 1] network calls were made, and the counter is back
    where it was. *)
Theorem makeRequest_returns_decoded_body this activeRequests net method endpoint data tr v a' :
  makeRequest this activeRequests net method endpoint data = Some (tr, Fulfilled v, a') ->
  exists a r,
    Z.of_nat a <= maxRetries this
    /\ net a = Resolved r /\ status r < 400 /\ json r = JsonOk v
    /\ network_calls tr = S a
    /\ a' = activeRequests.
Proof.
  unfold makeRequest.
  destruct (maxConcurrent this <=? activeRequests); [discriminate|].
  pose proof (retry_loop_first_decision this (build_request this method endpoint data) net
                (Z.to_nat (maxRetries this + 1)) 0%nat None) as Haux.
  unfold makeRequest_body, attempts.
  destruct (retry_loop this (build_request this method endpoint data) net
              (seq 0 (Z.to_nat (maxRetries this + 1))) None) as [tr' r] eqn:Hrun.
  intros H. inversion H; subst. clear H.
  destruct (first_decision net (seq 0 (Z.to_nat (maxRetries this + 1))))
    as [[k d]|] eqn:Hfirst.
  - destruct Haux as (Hr & Hn & Hrange). simpl in Hr, Hn. subst d.
    apply first_decision_found in Hfirst. destruct Hfirst as [_ Hdec].
    apply decision_fulfilled in Hdec. destruct Hdec as (r & Hnet & Hst & Hj).
    exists k, r. rewrite Nat.sub_0_r in Hn.
    repeat split; try assumption; lia.
  - destruct Haux as ((le & Hr) & _). simpl in Hr. discriminate Hr.
Qed.

Lemma makeRequest_returns_decoded_body_witness :
  exists tr v,
    makeRequest default_client 0
      (fun a => if (a <? 2)%nat then Aborted else Resolved translated)
      "POST" "/v2/translate" None
    = Some (tr, Fulfilled v, 0)
    /\ network_calls tr = 3%nat.
Proof.
  eexists _, _.
  assert (H : makeRequest default_client 0
                (fun a => if (a <? 2)%nat then Aborted else Resolved translated)
                "POST" "/v2/translate" None
              = Some ([Fetch translate_request; Sleep (Num 1000);
                       Fetch translate_request; Sleep (Num 2000);
                       Fetch translate_request],
                      Fulfilled (JObj [("translations",
                         JObj [("text", JStr "Hello"); ("translation", JStr "Bonjour");
                               ("source", JStr "en"); ("target", JStr "fr")])]),
                      0)) by reflexivity.
  split; [exact H|].
  destruct (makeRequest_returns_decoded_body _ _ _ _ _ _ _ _ _ H)
    as (a & r & _ & _ & _ & _ & Hn & _).
  reflexivity.
Defined.

(** ** The shape of a trace *)

Lemma network_calls_blocks req (waits : list (option JSNumber)) :
  network_calls (concat (map (attempt_events req) waits)) = length waits.
Proof.
  unfold network_calls. induction waits as [|w waits IH]; simpl; [reflexivity|].
  rewrite count_if_app, IH. destruct w; reflexivity.
Qed.

Lemma sleeps_app (tr1 tr2 : list Event) : sleeps (tr1 ++ tr2) = sleeps tr1 ++ sleeps tr2.
Proof. unfold sleeps. apply omap_app. Qed.

Lemma sleeps_blocks req (waits : list (option JSNumber)) :
  sleeps (concat (map (attempt_events req) waits)) = omap id waits.
Proof.
  induction waits as [|w waits IH]; [reflexivity|].
  change (concat (map (attempt_events req) (w :: waits)))
    with (attempt_events req w ++ concat (map (attempt_events req) waits)).
  rewrite sleeps_app, IH. destruct w; reflexivity.
Qed.

Lemma fewer_waits (waits : list (option JSNumber)) :
  last waits = Some None -> (length (omap id waits) < length waits)%nat.
Proof.
  induction waits as [|w waits IH]; [discriminate|].
  destruct waits as [|w' waits'].
  - simpl. intros H. inversion H. simpl. lia.
  - intros H. change (last (w :: w' :: waits')) with (last (w' :: waits')) in H.
    specialize (IH H). destruct w; simpl in *; lia.
Qed.

(** From attempt [a0] to the last one, the trace is a sequence of blocks,
    one per attempt made: the network call, then the wait of that attempt
    if it has one.  Only attempts before [maxRetries] wait, and the last
    block has no wait. *)
Lemma retry_loop_blocks this req net n :
  forall a0 lastError,
  n = Z.to_nat (maxRetries this + 1 - Z.of_nat a0) ->
  exists waits : list (option JSNumber),
    fst (retry_loop this req net (seq a0 n) lastError)
    = concat (map (attempt_events req) waits)
    /\ (length waits <= n)%nat
    /\ (n = 0%nat -> waits = [])
    /\ ((0 < n)%nat -> last waits = Some None)
    /\ (forall i ms, waits !! i = Some (Some ms) ->
          Z.of_nat (a0 + i) < maxRetries this
          /\ exists lastError' c lastError'',
               attempt_body this (a0 + i) lastError' (net (a0 + i)%nat)
               = ([Sleep ms], c, lastError'')).
Proof.
  induction n as [|n IH]; intros a0 lastError Hn; simpl.
  - exists []. split; [reflexivity|]. split; [simpl; lia|]. split; [reflexivity|].
    split; [lia|]. intros i ms H. destruct i; discriminate H.
  - pose proof (attempt_body_shape this a0 lastError (net a0)) as Hshape.
    destruct (attempt_body this a0 lastError (net a0)) as [[ev c] le'] eqn:Hbody.
    destruct c as [| |v|e].
    + destruct Hshape as [-> Hge].
      assert (n = 0%nat) by lia. subst n. simpl.
      exists [None]. split; [reflexivity|]. split; [simpl; lia|]. split; [lia|].
      split; [reflexivity|]. intros i ms H. destruct i as [|[|j]]; discriminate H.
    + destruct Hshape as [[d ->] Hlt].
      destruct (IH (S a0) le') as (waits & Htr & Hlen & _ & Hlast & Hwaits); [lia|].
      destruct (retry_loop this req net (seq (S a0) n) le') as [ev' r]. simpl in *.
      exists (Some d :: waits). simpl. rewrite Htr.
      split; [reflexivity|]. split; [lia|]. split; [lia|]. split.
      * intros _. assert (Hpos : (0 < n)%nat) by lia. specialize (Hlast Hpos).
        destruct waits as [|w waits']; [discriminate Hlast | exact Hlast].
      * intros i ms Hi. destruct i as [|i]; simpl in Hi.
        -- inversion Hi; subst. rewrite Nat.add_0_r. split; [exact Hlt|].
           exists lastError, Continue, le'. exact Hbody.
        -- replace (a0 + S i)%nat with (S a0 + i)%nat by lia. apply Hwaits. exact Hi.
    + subst ev. exists [None]. split; [reflexivity|]. split; [simpl; lia|]. split; [lia|].
      split; [reflexivity|]. intros i ms H. destruct i as [|[|j]]; discriminate H.
    + destruct Hshape as [-> _]. exists [None].
      split; [reflexivity|]. split; [simpl; lia|]. split; [lia|].
      split; [reflexivity|]. intros i ms H. destruct i as [|[|j]]; discriminate H.
Qed.

(** X4.  The trace of a call is a sequence of blocks, one per attempt made:
    the network call, always the same request, followed by the wait of
    that attempt if it has one.  Only attempts numbered below [maxRetries]
    wait, and the call never waits after its last network call. *)
Theorem trace_is_calls_and_waits this net method endpoint data :
  exists waits : list (option JSNumber),
    fst (makeRequest_body this net method endpoint data)
    = concat (map (attempt_events (build_request this method endpoint data)) waits)
    /\ (waits = [] \/ last waits = Some None)
    /\ (forall a ms, waits !! a = Some (Some ms) -> Z.of_nat a < maxRetries this).
Proof.
  unfold makeRequest_body, attempts.
  destruct (retry_loop_blocks this (build_request this method endpoint data) net
              (Z.to_nat (maxRetries this + 1)) 0%nat None)
    as (waits & Htr & _ & Hzero & Hlast & Hwaits); [lia|].
  exists waits. split; [exact Htr|]. split.
  - destruct (Z.to_nat (maxRetries this + 1)) as [|n]; [left; auto | right; apply Hlast; lia].
  - intros a ms Ha. apply (Hwaits a ms Ha).
Qed.

(** X5.  Whatever the network answers, a call makes at most
    [maxRetries + 1] network calls and waits at most [maxRetries] times,
    fewer times than it calls the network. *)
Theorem call_budget this net method endpoint data :
  let tr := fst (makeRequest_body this net method endpoint data) in
  (network_calls tr <= Z.to_nat (maxRetries this + 1))%nat
  /\ (length (sleeps tr) <= Z.to_nat (maxRetries this))%nat
  /\ (tr = [] \/ length (sleeps tr) < network_calls tr)%nat.
Proof.
  unfold makeRequest_body, attempts. simpl.
  destruct (retry_loop_blocks this (build_request this method endpoint data) net
              (Z.to_nat (maxRetries this + 1)) 0%nat None)
    as (waits & Htr & Hlen & Hzero & Hlast & _); [lia|].
  rewrite Htr, network_calls_blocks, sleeps_blocks.
  destruct (Z.to_nat (maxRetries this + 1)) as [|n] eqn:Hn.
  - rewrite (Hzero eq_refl). simpl. split; [lia|]. split; [lia|]. left. reflexivity.
  - assert (Hl : last waits = Some None) by (apply Hlast; lia).
    pose proof (fewer_waits waits Hl).
    split; [lia|]. split; [lia|]. right. lia.
Qed.

(** ** Transient failures *)

Section Transient.

Variable this : TranslatePlusClient.







End Transient.



(** ** Decimal numbers in [Retry-After] *)

Lemma digits_acc d : forall p,
  digits (NilEmpty.string_of_uint d) (Some (Z.pos p)) = Some (Z.pos (Pos.of_uint_acc d p)).
Proof.
  induction d; intros p; cbn [NilEmpty.string_of_uint digits Pos.of_uint_acc];
    [reflexivity | ..];
    match goal with
    | |- context [digit_of ?c] =>
        let v := eval vm_compute in (digit_of c) in change (digit_of c) with v
    end;
    cbn [default from_option id]; rewrite <- IHd; f_equal; f_equal; lia.
Qed.

Lemma digits_zero d :
  digits (NilEmpty.string_of_uint d) (Some 0) = Some (Z.of_N (Pos.of_uint d)).
Proof.
  induction d; cbn [NilEmpty.string_of_uint digits Pos.of_uint];
    [reflexivity | ..];
    match goal with
    | |- context [digit_of ?c] =>
        let v := eval vm_compute in (digit_of c) in change (digit_of c) with v
    end;
    cbn [default from_option id]; first [exact IHd | exact (digits_acc d _)].
Qed.

Lemma digits_start d :
  d <> Decimal.Nil ->
  digits (NilEmpty.string_of_uint d) None = digits (NilEmpty.string_of_uint d) (Some 0).
Proof. destruct d; [contradiction | ..]; reflexivity. Qed.

Lemma parseInt_uint d :
  d <> Decimal.Nil ->
  parseInt (NilEmpty.string_of_uint d) = Num (Z.of_N (Pos.of_uint d))
  /\ parseInt (String "-" (NilEmpty.string_of_uint d)) = Num (- Z.of_N (Pos.of_uint d)).
Proof.
  intros Hd. pose proof (digits_zero d) as Hz.
  rewrite <- (digits_start d Hd) in Hz.
  destruct d; [contradiction | ..];
    (split; unfold parseInt;
     [ change (skip_space (NilEmpty.string_of_uint ?x)) with (NilEmpty.string_of_uint x)
     | change (skip_space (String "-" ?x)) with (String "-" x) ];
     cbv iota beta; cbn [NilEmpty.string_of_uint] in *; rewrite Hz; reflexivity).
Qed.

Lemma parseInt_string_of_Z n : parseInt (string_of_Z n) = Num n.
Proof.
  destruct n as [|p|p]; [reflexivity | ..]; unfold string_of_Z; simpl Z.to_int;
    unfold NilZero.string_of_int, NilZero.string_of_uint;
    pose proof (Unsigned.to_uint_nonnil p) as Hnn;
    destruct (parseInt_uint (Pos.to_uint p) Hnn) as [Hpos Hneg];
    destruct (Pos.to_uint p) eqn:Hd; try contradiction;
    rewrite <- Hd in *; first [rewrite Hpos | rewrite Hneg];
    rewrite Unsigned.of_to; reflexivity.
Qed.

(** X8.  A [Retry-After] header that holds in decimal a whole number [n]
    of seconds, small enough for [n * 1000] to be a safe integer, is read
    as that number, and the wait it asks for is capped by the backoff of
    the attempt: the header can shorten the wait below [2^attempt * 1000]
    ms but never extend it. *)
Theorem retry_after_seconds_are_capped r attempt n :
  header_Retry_After r = Some (string_of_Z n) ->
  Z.abs n * 1000 <= 2 ^ 53 ->
  rate_limit_delay r attempt = Num (Z.min (n * 1000) (2 ^ Z.of_nat attempt * 1000))
  /\ Z.min (n * 1000) (2 ^ Z.of_nat attempt * 1000) <= 2 ^ Z.of_nat attempt * 1000.
Proof.
  intros Hhdr Hsafe. split; [|lia].
  rewrite rate_limit_delay_parsed, Hhdr.
  assert (Hs : string_or (Some (string_of_Z n)) "2" = string_of_Z n).
  { unfold string_or. destruct (String.eqb_spec (string_of_Z n) "") as [He|]; [|reflexivity].
    pose proof (parseInt_string_of_Z n) as Hp. rewrite He in Hp. discriminate Hp. }
  rewrite Hs, parseInt_string_of_Z. reflexivity.
Qed.

Lemma retry_after_seconds_are_capped_witness :
  header_Retry_After rate_limited = Some (string_of_Z 60)
  /\ Z.abs 60 * 1000 <= 2 ^ 53
  /\ rate_limit_delay rate_limited 0 = Num 1000.
Proof.
  assert (H : header_Retry_After rate_limited = Some (string_of_Z 60)) by reflexivity.
  assert (Hsafe : Z.abs 60 * 1000 <= 2 ^ 53) by (vm_compute; discriminate).
  split; [exact H|]. split; [exact Hsafe|].
  destruct (retry_after_seconds_are_capped rate_limited 0 60 H Hsafe) as [Hd _].
  exact Hd.
Defined.

(** ** The constructor and the URL *)

Lemma strip_trailing_slash_app (u : string) : strip_trailing_slash (u +:+ "/") = u.
Proof.
  induction u as [|c u IH]; [reflexivity|].
  simpl. destruct (u +:+ "/") eqn:Hu.
  - destruct u; discriminate Hu.
  - rewrite IH. reflexivity.
Qed.

(** X9.  A base URL given with a trailing slash loses it, and an endpoint
    loses its leading slash, so exactly one slash joins the two: a client
    built with [u/] sends the endpoints [/p] and [p] to the same URL
    [u/p]. *)
Theorem one_slash_between_base_and_path options u p :
  opt_apiKey options <> "" ->
  opt_baseUrl options = Some (u +:+ "/") ->
  exists this,
    constructor options = inr this
    /\ baseUrl this = u
    /\ forall method data,
         url (build_request this method ("/" +:+ p) data) = u +:+ "/" +:+ p
         /\ (strip_leading_slash p = p ->
             url (build_request this method p data) = u +:+ "/" +:+ p).
Proof.
  intros Hkey Hurl. unfold constructor.
  destruct (String.eqb_spec (opt_apiKey options) ""); [contradiction|].
  eexists. split; [reflexivity|]. simpl. rewrite Hurl.
  assert (Hbase : strip_trailing_slash
                    (string_or (Some (u +:+ "/")) "https://api.translateplus.io") = u).
  { unfold string_or. destruct (String.eqb_spec (u +:+ "/") "") as [He|].
    - destruct u; discriminate He.
    - apply strip_trailing_slash_app. }
  rewrite Hbase. split; [reflexivity|].
  intros method data. split; [reflexivity|].
  intros Hp. rewrite Hp. reflexivity.
Qed.

Lemma one_slash_between_base_and_path_witness :
  opt_apiKey (mkOptions "test-api-key" (Some ("https://custom-api.com" +:+ "/")) None None None)
  <> ""
  /\ exists this,
       constructor (mkOptions "test-api-key" (Some ("https://custom-api.com" +:+ "/"))
                      None None None) = inr this
       /\ url (build_request this "POST" ("/" +:+ "v2/translate") None)
          = "https://custom-api.com/v2/translate".
Proof.
  assert (H : opt_apiKey (mkOptions "test-api-key" (Some ("https://custom-api.com" +:+ "/"))
                            None None None) <> "") by discriminate.
  split; [exact H|].
  destruct (one_slash_between_base_and_path _ "https://custom-api.com" "v2/translate"
              H eq_refl) as (this & Hc & _ & Hurl).
  exists this. split; [exact Hc|].
  exact (proj1 (Hurl "POST" None)).
Defined.



(** ** The wrappers that validate their input *)

(** X11.  [translateSubtitles] raises a validation error exactly when the
    format is neither ["srt"] nor ["vtt"] (the comparison is exact, so
    ["SRT"] is refused too); in that case it makes no network call and
    leaves the counter alone. *)
Theorem translateSubtitles_format_check this activeRequests net options :
  (format options <> "srt" /\ format options <> "vtt" ->
   translateSubtitles this activeRequests net options
   = Some ([], Rejected (new_error TranslatePlusValidationError
                           "Format must be 'srt' or 'vtt'"),
           activeRequests))
  /\ (forall tr e a,
        translateSubtitles this activeRequests net options = Some (tr, Rejected e, a) ->
        cls e = TranslatePlusValidationError ->
        format options <> "srt" /\ format options <> "vtt" /\ tr = [] /\ a = activeRequests).
Proof.
  unfold translateSubtitles. split.
  - intros [Hsrt Hvtt].
    destruct (String.eqb_spec (format options) "srt"); [contradiction|].
    destruct (String.eqb_spec (format options) "vtt"); [contradiction|].
    reflexivity.
  - intros tr e a.
    destruct (String.eqb_spec (format options) "srt") as [Hs|Hs]; simpl.
    { intros H Hc. apply makeRequest_never_validation in H. contradiction. }
    destruct (String.eqb_spec (format options) "vtt") as [Hv|Hv]; simpl.
    { intros H Hc. apply makeRequest_never_validation in H. contradiction. }
    intros H _. inversion H. auto.
Qed.

Section WireProperties.

Variable this : TranslatePlusClient.
Variable version : string.
Variable form_headers : list (string * string).
Variable resolve : string -> string.
Variable existsSync : string -> bool.

Lemma makeRequest_wire_never_validation activeRequests net method endpoint data files params
    tr e a :
  makeRequest_wire this version form_headers activeRequests net method endpoint data
    files params = Some (tr, Rejected e, a) ->
  cls e <> TranslatePlusValidationError.
Proof.
  unfold makeRequest_wire.
  destruct (maxConcurrent this <=? activeRequests); [discriminate|].
  destruct (retry_loop this _ net (attempts this) None) as [tr' r] eqn:Hrun.
  intros H. inversion H; subst.
  apply retry_loop_rejects in Hrun.
  destruct Hrun as [-> | [-> | ->]]; discriminate.
Qed.

(** X12.  [createI18nJob] raises a validation error exactly when the
    resolved path does not exist; it then names the resolved path, makes no
    network call and leaves the counter alone. *)
Theorem createI18nJob_file_check activeRequests net options :
  (existsSync (resolve (file_path options)) = false ->
   createI18nJob this version form_headers resolve existsSync activeRequests net options
   = Some ([], Rejected (new_error TranslatePlusValidationError
                           ("File not found: " +:+ resolve (file_path options))),
           activeRequests))
  /\ (forall tr e a,
        createI18nJob this version form_headers resolve existsSync activeRequests net options
        = Some (tr, Rejected e, a) ->
        cls e = TranslatePlusValidationError ->
        existsSync (resolve (file_path options)) = false /\ tr = [] /\ a = activeRequests).
Proof.
  unfold createI18nJob. split.
  - intros ->. reflexivity.
  - intros tr e a.
    destruct (existsSync (resolve (file_path options))); simpl.
    + intros H Hc. apply makeRequest_wire_never_validation in H. contradiction.
    + intros H _. inversion H. auto.
Qed.

End WireProperties.

(** ** What goes on the wire *)

Lemma fetch_in_blocks req (waits : list (option JSNumber)) r :
  Fetch r ∈ concat (map (attempt_events req) waits) -> r = req.
Proof.
  induction waits as [|w waits IH]; simpl; [intros H; inversion H|].
  intros H. inversion H as [? ? Heq | ? ? ? Hin]; subst.
  - reflexivity.
  - apply elem_of_app in Hin. destruct Hin as [Hin | Hin]; [|exact (IH Hin)].
    destruct w; inversion Hin as [|? ? ? Hin']; subst; inversion Hin'.
Qed.

Lemma makeRequest_fetches this activeRequests net method endpoint data tr r a req :
  makeRequest this activeRequests net method endpoint data = Some (tr, r, a) ->
  Fetch req ∈ tr ->
  req = build_request this method endpoint data.
Proof.
  unfold makeRequest.
  destruct (maxConcurrent this <=? activeRequests); [discriminate|].
  destruct (retry_loop_blocks this (build_request this method endpoint data)
              net (Z.to_nat (maxRetries this + 1)) 0%nat None) as (waits & Htr & _);
    [lia|].
  unfold makeRequest_body, attempts.
  destruct (retry_loop this (build_request this method endpoint data) net
              (seq 0 (Z.to_nat (maxRetries this + 1))) None) as [tr' r'].
  intros H. inversion H; subst. simpl in Htr. rewrite Htr.
  apply fetch_in_blocks.
Qed.

Lemma string_or_nonempty (o : option string) (d : string) :
  d <> "" -> string_or o d <> "".
Proof.
  intros Hd. unfold string_or. destruct o as [s|]; [|exact Hd].
  destruct (String.eqb_spec s ""); assumption.
Qed.

(** X13.  The five translating operations never send an empty source
    language: on every network call, retries included, the body carries the
    [source] given by the caller, or ["auto"] when it is absent or empty. *)
Theorem source_defaults_to_auto this activeRequests net :
  let sent (src : option string) (tr : list Event) :=
    forall req, Fetch req ∈ tr ->
      exists fields,
        body req = Some (JObj fields)
        /\ assoc "source" fields = Some (JStr (string_or src "auto"))
        /\ string_or src "auto" <> "" in
  (forall o tr r a, translate this activeRequests net o = Some (tr, r, a) ->
                    sent (source o) tr)
  /\ (forall o tr r a, translateBatch this activeRequests net o = Some (tr, r, a) ->
                       sent (batch_source o) tr)
  /\ (forall o tr r a, translateHTML this activeRequests net o = Some (tr, r, a) ->
                       sent (html_source o) tr)
  /\ (forall o tr r a, translateEmail this activeRequests net o = Some (tr, r, a) ->
                       sent (email_source o) tr)
  /\ (forall o tr r a, translateSubtitles this activeRequests net o = Some (tr, r, a) ->
                       sent (subtitle_source o) tr).
Proof.
  assert (Hauto : forall src, string_or src "auto" <> "")
    by (intros src; apply string_or_nonempty; discriminate).
  simpl. repeat split; intros o tr r a Hrun req Hin.
  - unfold translate in Hrun. rewrite (makeRequest_fetches _ _ _ _ _ _ _ _ _ _ Hrun Hin).
    eexists. split; [reflexivity|]. split; [reflexivity | apply Hauto].
  - unfold translateBatch in Hrun.
    destruct (texts o) as [l|]; [|inversion Hrun; subst; inversion Hin].
    destruct (length l =? 0)%nat; [inversion Hrun; subst; inversion Hin|].
    destruct (100 <? length l)%nat; [inversion Hrun; subst; inversion Hin|].
    rewrite (makeRequest_fetches _ _ _ _ _ _ _ _ _ _ Hrun Hin).
    eexists. split; [reflexivity|]. split; [reflexivity | apply Hauto].
  - unfold translateHTML in Hrun. rewrite (makeRequest_fetches _ _ _ _ _ _ _ _ _ _ Hrun Hin).
    eexists. split; [reflexivity|]. split; [reflexivity | apply Hauto].
  - unfold translateEmail in Hrun. rewrite (makeRequest_fetches _ _ _ _ _ _ _ _ _ _ Hrun Hin).
    eexists. split; [reflexivity|]. split; [reflexivity | apply Hauto].
  - unfold translateSubtitles in Hrun.
    destruct (negb (String.eqb (format o) "srt") && negb (String.eqb (format o) "vtt"));
      [inversion Hrun; subst; inversion Hin|].
    rewrite (makeRequest_fetches _ _ _ _ _ _ _ _ _ _ Hrun Hin).
    eexists. split; [reflexivity|]. split; [reflexivity | apply Hauto].
Qed.

Lemma form_encode_uint d :
  form_encode (NilEmpty.string_of_uint d) = NilEmpty.string_of_uint d.
Proof.
  induction d; cbn [NilEmpty.string_of_uint form_encode]; [reflexivity | ..];
    match goal with
    | |- context [form_safe ?c] =>
        let v := eval vm_compute in (form_safe c) in change (form_safe c) with v
    end;
    cbv iota; rewrite IHd; reflexivity.
Qed.

(** Decimal numbers need no escaping in a query string. *)
Lemma form_encode_decimal n : form_encode (string_of_Z n) = string_of_Z n.
Proof.
  destruct n as [|p|p]; [reflexivity | ..]; unfold string_of_Z; simpl Z.to_int;
    unfold NilZero.string_of_int, NilZero.string_of_uint;
    pose proof (Unsigned.to_uint_nonnil p) as Hnn;
    pose proof (form_encode_uint (Pos.to_uint p)) as Henc;
    destruct (Pos.to_uint p) eqn:Hd; try contradiction;
    rewrite <- Hd in *.
  - exact Henc.
  - exact Henc.
  - exact Henc.
  - exact Henc.
  - exact Henc.
  - exact Henc.
  - exact Henc.
  - exact Henc.
  - exact Henc.
  - exact Henc.
  - cbn [form_encode]. change (form_safe "-") with true. cbv iota. rewrite Henc. reflexivity.
  - cbn [form_encode]. change (form_safe "-") with true. cbv iota. rewrite Henc. reflexivity.
  - cbn [form_encode]. change (form_safe "-") with true. cbv iota. rewrite Henc. reflexivity.
  - cbn [form_encode]. change (form_safe "-") with true. cbv iota. rewrite Henc. reflexivity.
  - cbn [form_encode]. change (form_safe "-") with true. cbv iota. rewrite Henc. reflexivity.
  - cbn [form_encode]. change (form_safe "-") with true. cbv iota. rewrite Henc. reflexivity.
  - cbn [form_encode]. change (form_safe "-") with true. cbv iota. rewrite Henc. reflexivity.
  - cbn [form_encode]. change (form_safe "-") with true. cbv iota. rewrite Henc. reflexivity.
  - cbn [form_encode]. change (form_safe "-") with true. cbv iota. rewrite Henc. reflexivity.
  - cbn [form_encode]. change (form_safe "-") with true. cbv iota. rewrite Henc. reflexivity.
Qed.

Lemma get_set_header k k' v headers :
  get_header k (set_header k' v headers)
  = if String.eqb k k' then Some v else get_header k headers.
Proof.
  induction headers as [|[k0 v0] rest IH]; simpl.
  - destruct (String.eqb k k'); reflexivity.
  - destruct (String.eqb_spec k' k0) as [->|Hne]; simpl.
    + destruct (String.eqb_spec k k0); reflexivity.
    + rewrite IH. destruct (String.eqb_spec k k0) as [->|]; [|reflexivity].
      destruct (String.eqb_spec k0 k'); [congruence | reflexivity].
Qed.

Lemma get_assign_headers k more :
  forall headers,
  get_header k more = None ->
  get_header k (assign_headers headers more) = get_header k headers.
Proof.
  unfold assign_headers.
  induction more as [|[k0 v0] rest IH]; intros headers Hnone; simpl; [reflexivity|].
  simpl in Hnone. destruct (String.eqb_spec k k0) as [|Hne]; [discriminate|].
  rewrite (IH _ Hnone), get_set_header.
  destruct (String.eqb_spec k k0); [contradiction | reflexivity].
Qed.

Section WireRequests.

Variable this : TranslatePlusClient.
Variable version : string.
Variable form_headers : list (string * string).

Lemma on_wire_fetches (w w' : WireRequest) (tr : list Event) :
  WireFetch w' ∈ map (on_wire w) tr -> w' = w.
Proof.
  induction tr as [|e tr IH]; simpl; [intros H; inversion H|].
  intros H. inversion H as [? ? Heq | ? ? ? Hin]; subst; [|exact (IH Hin)].
  destruct e; simpl in *; congruence.
Qed.

Lemma makeRequest_wire_fetches activeRequests net method endpoint data files params
    tr r a w :
  makeRequest_wire this version form_headers activeRequests net method endpoint data
    files params = Some (tr, r, a) ->
  WireFetch w ∈ tr ->
  w = build_wire_request this version form_headers method endpoint data files params.
Proof.
  unfold makeRequest_wire.
  destruct (maxConcurrent this <=? activeRequests); [discriminate|].
  destruct (retry_loop this _ net (attempts this) None) as [tr' r'].
  intros H. inversion H; subst. apply on_wire_fetches.
Qed.

(** X14.  For a page and a page size that are safe integers (1 and 20
    when left out), every network call of [listI18nJobs], retries included,
    is a GET without body to [<baseUrl>/v2/i18n/jobs?page=P&page_size=S],
    where [P] and [S] are their decimal renderings; negative numbers go
    through unescaped. *)
Theorem listI18nJobs_query activeRequests net page pageSize tr r a w :
  Z.abs (default 1 page) <= 2 ^ 53 ->
  Z.abs (default 20 pageSize) <= 2 ^ 53 ->
  listI18nJobs this version form_headers activeRequests net page pageSize = Some (tr, r, a) ->
  WireFetch w ∈ tr ->
  w_method w = "GET"
  /\ w_url w = (baseUrl this +:+ "/v2/i18n/jobs")
               +:+ "?page=" +:+ string_of_Z (default 1 page)
               +:+ "&page_size=" +:+ string_of_Z (default 20 pageSize)
  /\ w_body w = NoBody.
Proof.
  unfold listI18nJobs. intros _ _ Hrun Hin.
  rewrite (makeRequest_wire_fetches _ _ _ _ _ _ _ _ _ _ _ Hrun Hin).
  unfold build_wire_request, query_string, URLSearchParams_toString. simpl.
  rewrite !form_encode_decimal. repeat split.
Qed.

(** X15.  Unless the form-data package itself supplies them, the headers
    of a request are the client's: the credential and the library
    identification are always sent, a request without files is labelled
    [application/json] (also when it has no body), and a multipart request
    gets no [Content-Type] from the executor. *)
Theorem request_headers method endpoint data files params :
  let w := build_wire_request this version form_headers method endpoint data files params in
  (get_header "X-API-KEY" form_headers = None ->
   get_header "X-API-KEY" (w_headers w) = Some (apiKey this))
  /\ (get_header "User-Agent" form_headers = None ->
      get_header "User-Agent" (w_headers w) = Some ("translateplus-js/" +:+ version))
  /\ (files = None -> get_header "Content-Type" (w_headers w) = Some "application/json")
  /\ (files <> None -> get_header "Content-Type" form_headers = None ->
      get_header "Content-Type" (w_headers w) = None)
  /\ (files <> None -> exists parts, w_body w = FormBody parts).
Proof.
  unfold build_wire_request. destruct files as [fs|]; simpl.
  - split; [intros H; rewrite (get_assign_headers _ _ _ H); reflexivity|].
    split; [intros H; rewrite (get_assign_headers _ _ _ H); reflexivity|].
    split; [discriminate|].
    split; [intros _ H; rewrite (get_assign_headers _ _ _ H); reflexivity|].
    eauto.
  - split; [reflexivity|]. split; [reflexivity|]. split; [reflexivity|].
    split; intros H; contradiction.
Qed.

End WireRequests.

Lemma listI18nJobs_query_witness :
  Z.abs (default 1 None) <= 2 ^ 53
  /\ Z.abs (default 20 (Some 50)) <= 2 ^ 53
  /\ exists tr r,
       listI18nJobs default_client "1.0.0" [] 0 (fun _ => Resolved translated) None (Some 50)
       = Some (tr, r, 0)
       /\ forall w, WireFetch w ∈ tr ->
            w_url w = "https://api.translateplus.io/v2/i18n/jobs?page=1&page_size=50".
Proof.
  assert (H1 : Z.abs (default 1 None) <= 2 ^ 53) by (vm_compute; discriminate).
  assert (H2 : Z.abs (default 20 (Some 50)) <= 2 ^ 53) by (vm_compute; discriminate).
  split; [exact H1|]. split; [exact H2|].
  eexists _, _. split; [reflexivity|].
  intros w Hin.
  destruct (listI18nJobs_query default_client "1.0.0" [] 0 (fun _ => Resolved translated)
              None (Some 50) _ _ _ w H1 H2 eq_refl Hin) as (_ & Hurl & _).
  exact Hurl.
Defined.

(** X16.  A delete that is answered with a success status but a body that
    does not decode as JSON, such as an empty "204 No Content", never
    succeeds: each attempt counts as a transient failure, so the call makes
    [maxRetries + 1] network calls and fails with a generic API error. *)
Theorem deleteI18nJob_needs_json_body this activeRequests net jobId :
  activeRequests < maxConcurrent this ->
  (forall a, exists r msg, net a = Resolved r /\ status r < 400 /\ json r = JsonFail msg) ->
  exists tr e,
    deleteI18nJob this activeRequests net jobId = Some (tr, Rejected e, activeRequests)
    /\ cls e = TranslatePlusAPIError
    /\ network_calls tr = Z.to_nat (maxRetries this + 1).
Proof.
  intros Hadm Hnet. unfold deleteI18nJob.
  rewrite makeRequest_admitted by assumption.
  pose proof (retry_loop_first_decision this
                (build_request this "DELETE" ("/v2/i18n/jobs/" +:+ jobId) None) net
                (Z.to_nat (maxRetries this + 1)) 0%nat None) as Hrun.
  assert (Hnone : forall l, first_decision net l = None).
  { induction l as [|a l IH]; simpl; [reflexivity|].
    destruct (Hnet a) as (r & msg & -> & Hst & Hj). unfold decision.
    destruct (Z.ltb_spec (status r) 400); [|lia]. rewrite Hj. exact IH. }
  rewrite Hnone in Hrun. destruct Hrun as [[le Hr] Hn].
  unfold makeRequest_body, attempts.
  destruct (retry_loop this _ net (seq 0 (Z.to_nat (maxRetries this + 1))) None)
    as [tr r] eqn:Hloop.
  simpl in Hr, Hn. subst r.
  exists tr, (retries_failed this le). repeat split. exact Hn.
Qed.

Lemma deleteI18nJob_needs_json_body_witness :
  0 < maxConcurrent default_client
  /\ exists tr e,
       deleteI18nJob default_client 0
         (fun _ => Resolved (mkResponse 204 None (JsonFail "Unexpected end of JSON input") ""))
         "job-1"
       = Some (tr, Rejected e, 0)
       /\ cls e = TranslatePlusAPIError
       /\ network_calls tr = 4%nat.
Proof.
  assert (H1 : 0 < maxConcurrent default_client) by reflexivity.
  split; [exact H1|].
  apply (deleteI18nJob_needs_json_body default_client 0 _ "job-1" H1).
  intros a. eexists _, _. split; [reflexivity|]. split; [reflexivity | reflexivity].
Defined.

(** * Further properties of the interleaving *)

Section Starvation.

Variable this : TranslatePlusClient.
Hypothesis no_slot : maxConcurrent this <= 0.

Lemma never_admitted s :
  reachable this s ->
  activeRequests s = 0
  /\ forall i t, pool s !! i = Some t -> admitted t = false /\ forall r, t <> Done r.
Proof.
  unfold reachable. revert s.
  apply (rtc_ind_r (R := step this)
           (fun s => activeRequests s = 0
                     /\ forall i t, pool s !! i = Some t ->
                                    admitted t = false /\ forall r, t <> Done r) init).
  - split; [reflexivity|]. intros i t H. destruct i; discriminate H.
  - intros s s' _ Hstep [Hzero Hpool].
    assert (Hresume : forall j x t',
               admitted t' = false -> (forall r, t' <> Done r) ->
               activeRequests (resume s j (x, t', [])) = x
               /\ forall i t, pool (resume s j (x, t', [])) !! i = Some t ->
                              admitted t = false /\ forall r, t <> Done r).
    { intros j x t' Ha Hd. split; [reflexivity|]. simpl. intros i t Hi.
      destruct (decide (j = i)) as [->|Hne].
      - destruct (pool s !! i) eqn:Hsi.
        + rewrite list_lookup_insert_eq in Hi by (eapply lookup_lt_Some; exact Hsi).
          inversion Hi; subst. split; assumption.
        + rewrite list_insert_ge in Hi by (apply lookup_ge_None; exact Hsi).
          congruence.
      - rewrite list_lookup_insert_ne in Hi by exact Hne. exact (Hpool i t Hi). }
    inversion Hstep as [s0 | s0 | s0 j Hj Hfull | s0 j Hj Hfree | s0 j attempt le o Hj
                        | s0 j attempt le Hj | s0 j Hj | s0 j o Hj]; subst; simpl.
    + split; [exact Hzero|]. intros i t Hi.
      apply lookup_app_Some in Hi. destruct Hi as [Hi | [_ Hi]]; [exact (Hpool i t Hi)|].
      destruct (i - length (pool s))%nat; [|destruct n; discriminate Hi].
      inversion Hi; subst. split; [reflexivity | discriminate].
    + split; [exact Hzero|]. intros i t Hi.
      apply lookup_app_Some in Hi. destruct Hi as [Hi | [_ Hi]]; [exact (Hpool i t Hi)|].
      destruct (i - length (pool s))%nat; [|destruct n; discriminate Hi].
      inversion Hi; subst. split; [reflexivity | discriminate].
    + split; assumption.
    + lia.
    + destruct (Hpool j _ Hj) as [Ha _]. discriminate Ha.
    + destruct (Hpool j _ Hj) as [Ha _]. discriminate Ha.
    + destruct (Hresume j (activeRequests s) Downloading eq_refl) as [Hx Hp];
        [discriminate|]. split; [simpl; exact Hzero | exact Hp].
    + destruct (Hresume j (activeRequests s) (Downloaded (download_settles o)) eq_refl)
        as [Hx Hp]; [discriminate|]. split; [simpl; exact Hzero | exact Hp].
Qed.

End Starvation.

(** X17.  On a client whose [maxConcurrent] is zero or negative (the
    constructor keeps a negative value as given) no call of [makeRequest]
    is ever admitted: in every reachable state none has a network call in
    flight and none has settled, while downloads go on as usual. *)
Theorem no_slot_no_request this s :
  maxConcurrent this <= 0 ->
  reachable this s ->
  count_if fetching (pool s) = 0%nat
  /\ forall i t, pool s !! i = Some t -> makeRequest_pending t = true -> t = Queued.
Proof.
  intros Hcap Hreach.
  destruct (never_admitted this Hcap s Hreach) as [_ Hpool].
  split.
  - assert (Hall : forall l : list Task,
               (forall i t, l !! i = Some t -> admitted t = false) ->
               count_if fetching l = 0%nat).
    { induction l as [|t l IH]; intros Hl; [reflexivity|]. simpl.
      pose proof (Hl 0%nat t eq_refl) as Ht.
      rewrite IH by (intros i t' Hi; exact (Hl (S i) t' Hi)).
      destruct t; try reflexivity; discriminate Ht. }
    apply Hall. intros i t Hi. exact (proj1 (Hpool i t Hi)).
  - intros i t Hi Hp. destruct (Hpool i t Hi) as [Ha _].
    destruct t; try reflexivity; discriminate.
Qed.

Lemma no_slot_no_request_witness :
  maxConcurrent (mkClient "k" "https://api.translateplus.io" 30000 3 (-1)) <= 0
  /\ reachable (mkClient "k" "https://api.translateplus.io" 30000 3 (-1))
       {| activeRequests := 0; pool := [Queued]; log := [] |}
  /\ count_if fetching [Queued] = 0%nat.
Proof.
  assert (H1 : maxConcurrent (mkClient "k" "https://api.translateplus.io" 30000 3 (-1)) <= 0)
    by (simpl; lia).
  assert (H2 : reachable (mkClient "k" "https://api.translateplus.io" 30000 3 (-1))
                 {| activeRequests := 0; pool := [Queued]; log := [] |}).
  { unfold reachable. apply rtc_once. apply (step_call_makeRequest _ init). }
  split; [exact H1|]. split; [exact H2|].
  exact (proj1 (no_slot_no_request _ _ H1 H2)).
Defined.

(** X18.  In every reachable state the counter is not negative, a download
    has never written it, whatever its stage, and a download that has been
    called can start its network call at once, however many requests are
    in flight. *)
Theorem downloads_bypass_the_counter this s :
  reachable this s ->
  0 <= activeRequests s
  /\ (forall i t, pool s !! i = Some t ->
        t = Download \/ t = Downloading \/ (exists r, t = Downloaded r) ->
        increments s i = 0%nat /\ decrements s i = 0%nat)
  /\ (forall i, pool s !! i = Some Download ->
        exists s', step this s s'
                   /\ pool s' !! i = Some Downloading
                   /\ activeRequests s' = activeRequests s).
Proof.
  intros Hreach. destruct (invariant_reachable this s Hreach) as [Hwr _ Hact _].
  split; [lia|]. split.
  - intros i t Hi Ht. specialize (Hwr i t Hi).
    destruct Ht as [-> | [-> | [r ->]]]; inversion Hwr; split; reflexivity.
  - intros i Hi. eexists. split; [apply (step_download_fetch this s i Hi)|].
    simpl. split; [|reflexivity].
    apply list_lookup_insert_eq. eapply lookup_lt_Some. exact Hi.
Qed.

Lemma downloads_bypass_the_counter_witness :
  reachable single_slot_client two_downloads
  /\ increments two_downloads 0 = 0%nat
  /\ 0 <= activeRequests two_downloads.
Proof.
  pose proof two_downloads_reachable as H.
  destruct (downloads_bypass_the_counter single_slot_client two_downloads H)
    as (Hpos & Hwr & _).
  split; [exact H|].
  split; [exact (proj1 (Hwr 0%nat Downloading eq_refl (or_intror (or_introl eq_refl)))) | exact Hpos].
Defined.

(** ** No deadlock *)

Section Liveness.

Variable this : TranslatePlusClient.

Lemma enter_loop_fetching active a lastError a' lastError' :
  snd (fst (enter_loop this active a lastError)) = Fetching a' lastError' ->
  Z.of_nat a' <= maxRetries this.
Proof.
  unfold enter_loop. destruct (Z.leb_spec (Z.of_nat a) (maxRetries this)) as [Hle|Hgt]; simpl.
  - intros H. inversion H; subst. assumption.
  - discriminate.
Qed.

(** A call waiting for a response is within its retry budget. *)
Lemma fetching_within_budget s :
  reachable this s ->
  forall i a lastError, pool s !! i = Some (Fetching a lastError) ->
                        Z.of_nat a <= maxRetries this.
Proof.
  unfold reachable. revert s.
  apply (rtc_ind_r (R := step this)
           (fun s => forall i a lastError, pool s !! i = Some (Fetching a lastError) ->
                                           Z.of_nat a <= maxRetries this) init).
  - intros i a le H. destruct i; discriminate H.
  - intros s s' _ Hstep IH.
    assert (Hresume : forall j x,
               (forall a le, snd (fst x) = Fetching a le -> Z.of_nat a <= maxRetries this) ->
               forall i a le, pool (resume s j x) !! i = Some (Fetching a le) ->
                              Z.of_nat a <= maxRetries this).
    { intros j [[x t'] ops] Hx i a le Hi. simpl in Hi.
      destruct (decide (j = i)) as [->|Hne].
      - destruct (pool s !! i) eqn:Hsi.
        + rewrite list_lookup_insert_eq in Hi by (eapply lookup_lt_Some; exact Hsi).
          inversion Hi; subst. apply (Hx a le). reflexivity.
        + rewrite list_insert_ge in Hi by (apply lookup_ge_None; exact Hsi).
          congruence.
      - rewrite list_lookup_insert_ne in Hi by exact Hne. exact (IH i a le Hi). }
    inversion Hstep as [s0 | s0 | s0 j Hj Hfull | s0 j Hj Hfree | s0 j attempt lerr o Hj
                        | s0 j attempt lerr Hj | s0 j Hj | s0 j o Hj]; subst.
    + intros i a le Hi. simpl in Hi.
      apply lookup_app_Some in Hi. destruct Hi as [Hi | [_ Hi]]; [exact (IH i a le Hi)|].
      destruct (i - length (pool s))%nat; [|destruct n]; discriminate Hi.
    + intros i a le Hi. simpl in Hi.
      apply lookup_app_Some in Hi. destruct Hi as [Hi | [_ Hi]]; [exact (IH i a le Hi)|].
      destruct (i - length (pool s))%nat; [|destruct n]; discriminate Hi.
    + exact IH.
    + apply Hresume. intros a le. unfold admission.
      pose proof (enter_loop_fetching (activeRequests s + 1) 0 None a le) as He.
      destruct (enter_loop this (activeRequests s + 1) 0 None) as [[x t'] ops].
      exact He.
    + apply Hresume. intros a le. unfold after_fetch.
      destruct (attempt_body this attempt lerr o) as [[ev c] le'].
      destruct c; simpl; try discriminate.
      apply enter_loop_fetching.
    + apply Hresume. intros a le. apply enter_loop_fetching.
    + apply Hresume. intros a le. simpl. discriminate.
    + apply Hresume. intros a le. simpl. discriminate.
Qed.

Variable net : nat -> FetchOutcome.

(** From the loop test of attempt [a] on, the task runs to its end under
    [net]; nothing but its own entry of the pool has changed, and the
    counter has gone down by one. *)
Lemma loop_drains n :
  forall a lastError s i active,
  n = Z.to_nat (maxRetries this + 1 - Z.of_nat a) ->
  pool s !! i = Some (snd (fst (enter_loop this active a lastError))) ->
  activeRequests s = fst (fst (enter_loop this active a lastError)) ->
  exists s' r,
    rtc (step this) s s'
    /\ pool s' = <[i := Done r]> (pool s)
    /\ activeRequests s' = active - 1.
Proof.
  induction n as [|m IH]; intros a lastError s i active Hn Hi Hact.
  - unfold enter_loop in Hi, Hact.
    destruct (Z.leb_spec (Z.of_nat a) (maxRetries this)); [lia|].
    exists s, (Rejected (retries_failed this lastError)).
    split; [apply rtc_refl|]. split; [|exact Hact].
    symmetry. apply list_insert_id. exact Hi.
  - unfold enter_loop in Hi, Hact.
    destruct (Z.leb_spec (Z.of_nat a) (maxRetries this)); [|lia].
    simpl in Hi, Hact.
    pose proof (step_fetch this s i a lastError (net a) Hi) as Hstep.
    rewrite Hact in Hstep.
    destruct (resume_lookup s i _ (after_fetch this active a lastError (net a)) Hi)
      as [Hi1 Hact1].
    assert (Hpool1 : pool (resume s i (after_fetch this active a lastError (net a)))
                     = <[i := snd (fst (after_fetch this active a lastError (net a)))]>
                         (pool s)).
    { destruct (after_fetch this active a lastError (net a)) as [[x t'] ops]. reflexivity. }
    unfold after_fetch in Hstep, Hi1, Hact1, Hpool1.
    destruct (attempt_body this a lastError (net a)) as [[ev c] le'].
    assert (Hm : m = Z.to_nat (maxRetries this + 1 - Z.of_nat (S a))) by lia.
    destruct c as [| |v|e].
    + destruct (IH (S a) le' _ i active Hm Hi1 Hact1) as (s' & r & Hrun & Hdone & Hfin).
      exists s', r. split; [eapply rtc_l; eassumption|]. split; [|exact Hfin].
      rewrite Hdone, Hpool1. apply list_insert_insert_eq.
    + set (s1 := resume s i (active, Backoff a le', [])) in *.
      assert (Hi1' : pool s1 !! i = Some (Backoff a le')) by exact Hi1.
      pose proof (step_wake this s1 i a le' Hi1') as Hwake.
      change (activeRequests s1) with active in Hwake.
      destruct (resume_lookup s1 i _ (enter_loop this active (S a) le') Hi1')
        as [Hi2 Hact2].
      destruct (IH (S a) le' _ i active Hm Hi2 Hact2) as (s' & r & Hrun & Hdone & Hfin).
      exists s', r. split; [eapply rtc_l; [exact Hstep|]; eapply rtc_l; eassumption|].
      split; [|exact Hfin].
      rewrite Hdone.
      assert (Hpool2 : pool (resume s1 i (enter_loop this active (S a) le'))
                       = <[i := snd (fst (enter_loop this active (S a) le'))]> (pool s1)).
      { destruct (enter_loop this active (S a) le') as [[x t'] ops]. reflexivity. }
      rewrite Hpool2. change (pool s1) with (<[i := Backoff a le']> (pool s)).
      rewrite !list_insert_insert_eq. reflexivity.
    + eexists _, (Fulfilled v). split; [apply rtc_once; exact Hstep|].
      split; [reflexivity | assumption].
    + eexists _, (Rejected e). split; [apply rtc_once; exact Hstep|].
      split; [reflexivity | assumption].
Qed.

(** An admitted call can always run to its end. *)
Lemma admitted_task_drains s i t :
  reachable this s ->
  pool s !! i = Some t -> admitted t = true ->
  exists s' r,
    rtc (step this) s s'
    /\ pool s' = <[i := Done r]> (pool s)
    /\ activeRequests s' = activeRequests s - 1.
Proof.
  intros Hreach Hi Ha. destruct t as [|a le|a le| | | |]; try discriminate Ha.
  - pose proof (fetching_within_budget s Hreach i a le Hi) as Hle.
    apply (loop_drains (Z.to_nat (maxRetries this + 1 - Z.of_nat a)) a le s i
             (activeRequests s) eq_refl);
      unfold enter_loop; destruct (Z.leb_spec (Z.of_nat a) (maxRetries this));
      try lia; [exact Hi | reflexivity].
  - pose proof (step_wake this s i a le Hi) as Hwake.
    destruct (resume_lookup s i _ (enter_loop this (activeRequests s) (S a) le) Hi)
      as [Hi1 Hact1].
    destruct (loop_drains (Z.to_nat (maxRetries this + 1 - Z.of_nat (S a))) (S a) le _ i
                (activeRequests s) eq_refl Hi1 Hact1) as (s' & r & Hrun & Hdone & Hfin).
    exists s', r. split; [eapply rtc_l; eassumption|]. split; [|exact Hfin].
    rewrite Hdone.
    assert (Hpool : pool (resume s i (enter_loop this (activeRequests s) (S a) le))
                    = <[i := snd (fst (enter_loop this (activeRequests s) (S a) le))]>
                        (pool s)).
    { destruct (enter_loop this (activeRequests s) (S a) le) as [[x t'] ops]. reflexivity. }
    rewrite Hpool. apply list_insert_insert_eq.
Qed.

Lemma some_admitted (l : list Task) :
  (0 < count_if admitted l)%nat -> exists i t, l !! i = Some t /\ admitted t = true.
Proof.
  induction l as [|t l IH]; simpl; [lia|].
  destruct (admitted t) eqn:Ha.
  - intros _. exists 0%nat, t. split; [reflexivity | exact Ha].
  - intros H. destruct IH as (i & t' & Hi & Ht); [lia|].
    exists (S i), t'. split; assumption.
Qed.

(** All admitted calls can be run to their end; the queued ones are still
    queued afterwards. *)
Lemma pool_drains k :
  forall s,
  reachable this s ->
  count_if admitted (pool s) = k ->
  exists s',
    rtc (step this) s s'
    /\ activeRequests s' = 0
    /\ forall i, pool s !! i = Some Queued -> pool s' !! i = Some Queued.
Proof.
  induction k as [|k IH]; intros s Hreach Hk.
  - exists s. split; [apply rtc_refl|].
    destruct (invariant_reachable this s Hreach) as [_ _ Hact _].
    split; [lia | auto].
  - destruct (some_admitted (pool s)) as (j & t & Hj & Ht); [lia|].
    destruct (admitted_task_drains s j t Hreach Hj Ht) as (s1 & r & Hrun & Hpool & _).
    assert (Hreach1 : reachable this s1) by (eapply rtc_trans; eassumption).
    destruct (IH s1 Hreach1) as (s' & Hrun' & Hzero & Hq).
    { pose proof (count_if_insert admitted (pool s) j t (Done r) Hj) as Hc.
      rewrite Hpool. rewrite Ht in Hc. simpl in Hc. lia. }
    exists s'. split; [eapply rtc_trans; eassumption|]. split; [exact Hzero|].
    intros i Hi. apply Hq. rewrite Hpool.
    rewrite list_lookup_insert_ne; [exact Hi|].
    intros ->. rewrite Hi in Hj. inversion Hj; subst. discriminate Ht.
Qed.

(** X19.  Provided every [fetch] and every read of a response body
    settles ([answers a] is [None] for an attempt where one of them never
    does, and [Some] of its outcome otherwise), a client with at least one
    slot does not deadlock: from every reachable state, whatever those
    outcomes are, every queued call can still be admitted and run to its
    end, and it then settles with the result of the executor's retry
    loop. *)
Theorem queued_call_can_settle req (answers : nat -> option FetchOutcome) s i :
  0 < maxConcurrent this ->
  (forall a, answers a = Some (net a)) ->
  reachable this s ->
  pool s !! i = Some Queued ->
  exists s',
    rtc (step this) s s'
    /\ pool s' !! i = Some (Done (snd (retry_loop this req net (attempts this) None))).
Proof.
  intros Hcap _ Hreach Hi.
  destruct (pool_drains (count_if admitted (pool s)) s Hreach eq_refl)
    as (s1 & Hrun & Hzero & Hq).
  destruct (admitted_call_settles this req net s1 i (Hq i Hi)) as (s' & Hrun' & Hdone & _);
    [lia|].
  exists s'. split; [eapply rtc_trans; eassumption | exact Hdone].
Qed.

End Liveness.

Lemma queued_call_can_settle_witness :
  0 < maxConcurrent single_slot_client
  /\ reachable single_slot_client
       {| activeRequests := 1; pool := [Fetching 0 None; Queued];
          log := [(0%nat, Inc)] |}
  /\ exists s',
       rtc (step single_slot_client)
         {| activeRequests := 1; pool := [Fetching 0 None; Queued];
            log := [(0%nat, Inc)] |} s'
       /\ pool s' !! 1%nat
          = Some (Done (Fulfilled (JObj [("translations",
               JObj [("text", JStr "Hello"); ("translation", JStr "Bonjour");
                     ("source", JStr "en"); ("target", JStr "fr")])]))).
Proof.
  assert (H1 : 0 < maxConcurrent single_slot_client) by reflexivity.
  assert (H2 : reachable single_slot_client
                 {| activeRequests := 1; pool := [Fetching 0 None; Queued];
                    log := [(0%nat, Inc)] |}).
  { unfold reachable.
    eapply rtc_l; [apply step_call_makeRequest|].
    eapply rtc_l; [apply step_call_makeRequest|].
    eapply rtc_l.
    { apply (step_admission single_slot_client _ 0%nat); [reflexivity | simpl; lia]. }
    apply rtc_refl. }
  split; [exact H1|]. split; [exact H2|].
  exact (queued_call_can_settle single_slot_client (fun _ => Resolved translated)
           translate_request (fun _ => Some (Resolved translated)) _ 1%nat H1
           (fun _ => eq_refl) H2 eq_refl).
Defined.

(** * Further properties of [translateConcurrent] *)

Lemma all_filled_hole {A : Type} (values : list (option A)) i :
  values !! i = Some None -> all_filled values = None.
Proof.
  revert i. induction values as [|v values IH]; intros i Hi; [destruct i; discriminate Hi|].
  destruct i as [|i]; simpl in Hi.
  - inversion Hi; subst. reflexivity.
  - simpl. destruct v; [|reflexivity]. rewrite (IH i Hi). reflexivity.
Qed.

Lemma all_collect_nil {A : Type} (order : list nat) :
  all_collect (@nil (Settled A)) order [] = inr [].
Proof. induction order as [|i order IH]; simpl; [reflexivity | exact IH]. Qed.

Lemma all_filled_imap_Some {A B : Type} (l : list A) :
  forall f : nat -> A -> B,
  all_filled (imap (fun i x => Some (f i x)) l) = Some (imap f l).
Proof.
  induction l as [|x l IH]; intros f; [reflexivity|].
  change (all_filled (Some (f 0%nat x) :: imap (fun i y => Some (f (S i) y)) l)
          = Some (f 0%nat x :: imap (fun i => f (S i)) l)).
  simpl. rewrite (IH (fun i => f (S i))). reflexivity.
Qed.

(** For an empty array no call is started and [Promise.all] is fulfilled
    at once. *)
Lemma translateConcurrent_nil this nets order source target :
  translateConcurrent this nets order [] source target = Some (Fulfilled []).
Proof.
  unfold translateConcurrent, concurrent_calls, Promise_all. simpl.
  rewrite all_collect_nil. reflexivity.
Qed.

(** On a client without a slot no call settles. *)
Lemma translateConcurrent_no_slot this nets order texts source target :
  maxConcurrent this <= 0 -> texts <> [] ->
  translateConcurrent this nets order texts source target = None.
Proof.
  intros Hcap Hne. unfold translateConcurrent, concurrent_calls, translate_call.
  destruct (Z.leb_spec (maxConcurrent this) 0); [|lia].
  destruct texts as [|t texts]; [contradiction | reflexivity].
Qed.

(** On a client with a slot every call runs, and each promise handed to
    [Promise.all] is fulfilled: with the result of its call or, through
    the handler of line 559, with the message of its error. *)
Lemma translateConcurrent_slot this nets order texts source target :
  0 < maxConcurrent this ->
  all_filled (concurrent_calls this nets texts source target)
  = Some (imap (fun i text =>
                  makeRequest_body this (nets i) "POST" "/v2/translate"
                    (Some (translate_data
                             {| text := text; source := Some (default "auto" source);
                                target := target |}))) texts)
  /\ translateConcurrent this nets order texts source target
     = Promise_all (map Fulfilled (imap (slot_of this nets source target) texts)) order.
Proof.
  intros Hcap.
  assert (Hcalls : all_filled (concurrent_calls this nets texts source target)
                   = Some (imap (fun i text =>
                                   makeRequest_body this (nets i) "POST" "/v2/translate"
                                     (Some (translate_data
                                              {| text := text;
                                                 source := Some (default "auto" source);
                                                 target := target |}))) texts)).
  { unfold concurrent_calls, translate_call.
    destruct (Z.leb_spec (maxConcurrent this) 0); [lia|].
    apply all_filled_imap_Some. }
  split; [exact Hcalls|].
  unfold translateConcurrent. rewrite Hcalls. f_equal.
  change (map ?f ?l) with (f <$> l).
  rewrite !fmap_imap. apply imap_ext. intros i text _. simpl.
  unfold slot_of, translate_settles, promise_catch.
  destruct (makeRequest_body this (nets i) "POST" "/v2/translate" _) as [tr [v|e]];
    reflexivity.
Qed.

(** X20.  [translateConcurrent] never rejects, in whatever order the calls
    settle and however they fail; it stays pending as long as one of the
    calls has not settled; and for an empty array it is fulfilled with the
    empty array at once. *)
Theorem translateConcurrent_never_rejects this nets order texts source target :
  (forall e, translateConcurrent this nets order texts source target <> Some (Rejected e))
  /\ (forall i, (i < length texts)%nat -> i ∉ order ->
        translateConcurrent this nets order texts source target = None)
  /\ (texts = [] -> translateConcurrent this nets order texts source target
                    = Some (Fulfilled [])).
Proof.
  split; [|split]; [| |intros ->; apply translateConcurrent_nil].
  - intros e. destruct (Z.leb_spec (maxConcurrent this) 0) as [Hcap|Hcap].
    + destruct texts as [|t texts].
      * rewrite translateConcurrent_nil. discriminate.
      * rewrite translateConcurrent_no_slot by (assumption || discriminate). discriminate.
    + rewrite (proj2 (translateConcurrent_slot this nets order texts source target Hcap)).
      unfold Promise_all.
      set (vs := imap (slot_of this nets source target) texts).
      destruct (all_collect_fulfilled vs order (replicate (length (map Fulfilled vs)) None))
        as (values' & Hrun & _).
      { rewrite length_replicate, length_map. reflexivity. }
      rewrite Hrun. destruct (all_filled values'); discriminate.
  - intros i Hi Hnin. destruct (Z.leb_spec (maxConcurrent this) 0) as [Hcap|Hcap].
    + apply translateConcurrent_no_slot; [exact Hcap|].
      intros ->. simpl in Hi. lia.
    + rewrite (proj2 (translateConcurrent_slot this nets order texts source target Hcap)).
      unfold Promise_all.
      set (vs := imap (slot_of this nets source target) texts).
      destruct (all_collect_fulfilled vs order (replicate (length (map Fulfilled vs)) None))
        as (values' & Hrun & Hlen & Hlook).
      { rewrite length_replicate, length_map. reflexivity. }
      rewrite Hrun, (all_filled_hole values' i); [reflexivity|].
      rewrite Hlook, decide_False by exact Hnin.
      apply lookup_replicate_2. rewrite length_map. unfold vs. rewrite length_imap. exact Hi.
Qed.

(** * The operations without validation *)

Lemma append_empty_r (s : string) : s +:+ "" = s.
Proof.
  induction s as [|c s IH]; [reflexivity|].
  change (String c (s +:+ "") = String c s). f_equal. exact IH.
Qed.

(** Without files and query parameters the wire request is the request of
    the executor's trace, and the run is the same. *)
Lemma makeRequest_wire_agrees this version form_headers activeRequests net method endpoint data :
  describe (build_wire_request this version form_headers method endpoint data None None)
  = build_request this method endpoint data
  /\ makeRequest_wire this version form_headers activeRequests net method endpoint data
       None None
     = match makeRequest this activeRequests net method endpoint data with
       | Some (tr, r, a) =>
           Some (map (on_wire (build_wire_request this version form_headers method endpoint
                                 data None None)) tr, r, a)
       | None => None
       end.
Proof.
  assert (Hd : describe (build_wire_request this version form_headers method endpoint data
                           None None)
               = build_request this method endpoint data).
  { unfold describe, build_wire_request, build_request, query_string. simpl.
    rewrite append_empty_r.
    destruct data as [d|]; [destruct (truthy d)|]; reflexivity. }
  split; [exact Hd|].
  unfold makeRequest_wire, makeRequest, makeRequest_body. rewrite Hd.
  destruct (maxConcurrent this <=? activeRequests); [reflexivity|].
  destruct (retry_loop this (build_request this method endpoint data) net (attempts this) None).
  reflexivity.
Qed.

(** X21.  The operations that take no options validate nothing and send
    the same request on every network call: [detectLanguage] a POST of
    [{text}] to [/v2/language/detect], [getSupportedLanguages],
    [getAccountSummary] and [getI18nJobStatus] a GET without body to their
    path, [deleteI18nJob] a DELETE without body; none of them ever raises a
    validation error. *)
Theorem plain_operations this activeRequests net :
  let sends (run : option (list Event * Settled JSON * Z)) (m path : string)
            (b : option JSON) :=
    forall tr r a, run = Some (tr, r, a) ->
      (forall req, Fetch req ∈ tr ->
         req = {| method := m; url := baseUrl this +:+ "/" +:+ path; body := b |})
      /\ (forall e, r = Rejected e -> cls e <> TranslatePlusValidationError) in
  (forall text, sends (detectLanguage this activeRequests net text) "POST"
                  "v2/language/detect" (Some (JObj [("text", JStr text)])))
  /\ sends (getSupportedLanguages this activeRequests net) "GET" "v2/language/supported" None
  /\ sends (getAccountSummary this activeRequests net) "GET" "v2/user/account" None
  /\ (forall jobId, sends (getI18nJobStatus this activeRequests net jobId) "GET"
                      ("v2/i18n/jobs/" +:+ jobId) None)
  /\ (forall jobId tr r a,
        deleteI18nJob this activeRequests net jobId = Some (tr, r, a) ->
        (forall req, Fetch req ∈ tr ->
           req = {| method := "DELETE";
                    url := baseUrl this +:+ "/" +:+ "v2/i18n/jobs/" +:+ jobId;
                    body := None |})
        /\ (forall e, r = Rejected e -> cls e <> TranslatePlusValidationError)).
Proof.
  assert (Hgen : forall m e d tr r a,
             makeRequest this activeRequests net m e d = Some (tr, r, a) ->
             (forall req, Fetch req ∈ tr -> req = build_request this m e d)
             /\ (forall err, r = Rejected err -> cls err <> TranslatePlusValidationError)).
  { intros m e d tr r a Hrun. split.
    - intros req Hin. exact (makeRequest_fetches _ _ _ _ _ _ _ _ _ _ Hrun Hin).
    - intros err ->. exact (makeRequest_never_validation _ _ _ _ _ _ _ _ _ Hrun). }
  simpl. split; [|split; [|split; [|split]]].
  - intros text tr r a Hrun. exact (Hgen _ _ _ _ _ _ Hrun).
  - intros tr r a Hrun. exact (Hgen _ _ _ _ _ _ Hrun).
  - intros tr r a Hrun. exact (Hgen _ _ _ _ _ _ Hrun).
  - intros jobId tr r a Hrun. exact (Hgen _ _ _ _ _ _ Hrun).
  - intros jobId tr r a. unfold deleteI18nJob.
    destruct (makeRequest this activeRequests net "DELETE" ("/v2/i18n/jobs/" +:+ jobId) None)
      as [[[tr' r'] a']|] eqn:Hrun; [|discriminate].
    destruct (Hgen _ _ _ _ _ _ Hrun) as [Hreq Herr].
    destruct r' as [v|e']; intros H; inversion H; subst.
    + split; [exact Hreq | discriminate].
    + split; [exact Hreq|]. intros e He. inversion He; subst. apply Herr. reflexivity.
Qed.

(** * [translateConcurrent]: what each call sends and where its result goes *)

Lemma makeRequest_body_fetches this net method endpoint data req :
  Fetch req ∈ fst (makeRequest_body this net method endpoint data) ->
  req = build_request this method endpoint data.
Proof.
  unfold makeRequest_body, attempts.
  destruct (retry_loop_blocks this (build_request this method endpoint data)
              net (Z.to_nat (maxRetries this + 1)) 0%nat None) as (waits & Htr & _);
    [lia|].
  rewrite Htr. apply fetch_in_blocks.
Qed.

(** C7, as stated, fails.  On a client constructed with
    [maxConcurrent: -1] no call leaves the admission loop, so none of the
    promises settles and [translateConcurrent] never returns its array. *)
Lemma no_slot_client_never_returns :
  concurrent_calls no_slot_client (fun _ _ => Resolved translated) ["A"; "B"] (Some "en") "fr"
  = [None; None]
  /\ translateConcurrent no_slot_client (fun _ _ => Resolved translated) [0; 1]%nat
       ["A"; "B"] (Some "en") "fr"
     = None.
Proof. split; reflexivity. Qed.

(** C7, amended.  On a client with at least one slot, when every call
    settles, in whatever order, [translateConcurrent] is fulfilled with an
    array as long as [texts].  Slot [i] belongs to [texts[i]]: the call
    started for it sends, on each of its network calls, a POST to
    [/v2/translate] with that text, the source (["auto"] when absent or
    empty) and the target; the slot holds the result of that call when it
    succeeded and [{ error: message }] when it failed. *)
Theorem translateConcurrent_in_order this nets order texts source target :
  0 < maxConcurrent this ->
  order ≡ₚ seq 0 (length texts) ->
  exists results,
    translateConcurrent this nets order texts source target = Some (Fulfilled results)
    /\ length results = length texts
    /\ forall i text, texts !! i = Some text ->
         exists tr r,
           concurrent_calls this nets texts source target !! i = Some (Some (tr, r))
           /\ (forall req, Fetch req ∈ tr ->
                 req = {| method := "POST";
                          url := baseUrl this +:+ "/" +:+ "v2/translate";
                          body := Some (JObj [("text", JStr text);
                                              ("source", JStr (string_or source "auto"));
                                              ("target", JStr target)]) |})
           /\ results !! i
              = Some (match r with
                      | Fulfilled v => v
                      | Rejected e => JObj [("error", JStr (message e))]
                      end).
Proof.
  intros Hcap Hperm.
  destruct (translateConcurrent_slot this nets order texts source target Hcap)
    as [Hcalls Hrun].
  exists (imap (slot_of this nets source target) texts).
  split; [|split].
  - rewrite Hrun. apply Promise_all_fulfilled. rewrite length_imap. exact Hperm.
  - apply length_imap.
  - intros i text Hi.
    exists (fst (makeRequest_body this (nets i) "POST" "/v2/translate"
                   (Some (translate_data {| text := text;
                                            source := Some (default "auto" source);
                                            target := target |})))),
           (translate_settles this (nets i)
              {| text := text; source := Some (default "auto" source); target := target |}).
    split; [|split].
    + unfold concurrent_calls, translate_call.
      destruct (Z.leb_spec (maxConcurrent this) 0); [lia|].
      rewrite list_lookup_imap, Hi. simpl. unfold translate_settles.
      destruct (makeRequest_body this (nets i) "POST" "/v2/translate" _). reflexivity.
    + intros req Hin. apply makeRequest_body_fetches in Hin. subst req.
      destruct source as [s|]; reflexivity.
    + rewrite list_lookup_imap, Hi. reflexivity.
Qed.

Lemma translateConcurrent_in_order_witness :
  0 < maxConcurrent default_client
  /\ [1; 0]%nat ≡ₚ seq 0 (length ["A"; "B"])
  /\ exists results,
       translateConcurrent default_client
         (fun i _ => if (i =? 0)%nat then Resolved translated else Resolved forbidden)
         [1; 0]%nat ["A"; "B"] (Some "en") "fr"
       = Some (Fulfilled results)
       /\ length results = 2%nat
       /\ results !! 1%nat = Some (JObj [("error", JStr "Invalid API key")]).
Proof.
  assert (H1 : 0 < maxConcurrent default_client) by reflexivity.
  assert (H2 : [1; 0]%nat ≡ₚ seq 0 (length ["A"; "B"])) by apply Permutation_swap.
  split; [exact H1|]. split; [exact H2|].
  destruct (translateConcurrent_in_order default_client
              (fun i _ => if (i =? 0)%nat then Resolved translated else Resolved forbidden)
              [1; 0]%nat ["A"; "B"] (Some "en") "fr" H1 H2)
    as (results & Hrun & Hlen & Hslots).
  exists results. split; [exact Hrun|]. split; [exact Hlen|].
  destruct (Hslots 1%nat "B" eq_refl) as (tr & r & Hcall & _ & Hres).
  assert (Hc : exists tr',
             concurrent_calls default_client
               (fun i _ => if (i =? 0)%nat then Resolved translated else Resolved forbidden)
               ["A"; "B"] (Some "en") "fr" !! 1%nat
             = Some (Some (tr', Rejected (new_api_error TranslatePlusAuthenticationError
                                            "Invalid API key" 403
                                            (JObj [("detail", JStr "Invalid API key")])))))
    by (eexists; reflexivity).
  destruct Hc as [tr' Hc]. rewrite Hc in Hcall. inversion Hcall; subst.
  exact Hres.
Defined.
